(** * Sharded, lock-partitioned map: [ylt/util/map_sharded.hpp]

    Shallow embedding of [internal::map_lock_t] (one shard: a lazily
    allocated map behind a mutex) and of [map_sharded_t] (a fixed vector of
    shards plus a relaxed atomic element counter).  Each public operation of
    a shard is one critical section, so the sequential semantics of one call
    is modelled as a pure function on the state; the mutex itself carries no
    data and is left out.

    - [size_t] values are [Z] reduced modulo 2^64 ([to_size_t]); the local
      [auto total = 0] of [erase_if]/[erase_one] is an [int], reduced by
      [to_int] (two's complement, as C++20 specifies the conversion).
    - Undefined behaviour (dereferencing [end()], [hash % 0]) is the
      [Undefined] outcome.
    - The underlying [Map] (key-unique, e.g. [std::unordered_map]) is an
      association list in iteration order; a fresh key is appended. *)

From Stdlib Require Import ZArith List Bool Lia Permutation.
Import ListNotations.

Open Scope Z_scope.

(** ** Machine integers *)

Definition to_size_t (z : Z) : Z := z mod 2 ^ 64.

Definition to_int (z : Z) : Z :=
  let r := z mod 2 ^ 32 in
  if 2 ^ 31 <=? r then r - 2 ^ 32 else r.

(** ** Outcomes: a value, or undefined behaviour *)

Inductive outcome (A : Type) : Type :=
| Ret : A -> outcome A
| Undefined : outcome A.

Arguments Ret {A} _.
Arguments Undefined {A}.

Definition obind {A B : Type} (m : outcome A) (f : A -> outcome B) : outcome B :=
  match m with
  | Ret a => f a
  | Undefined => Undefined
  end.

Notation "x <- m ;; k" := (obind m (fun x => k))
  (at level 61, m at next level, right associativity).

Section MapSharded.

Context {K V : Type}.
(** [Map::key_type] has a decidable equality; [Hash{}] is a function. *)
Variable K_eq_dec : forall x y : K, {x = y} + {x <> y}.
Variable hash : K -> Z.

(** ** The underlying single-shard [Map] *)

Definition umap : Type := list (K * V).

(** [Map::find]: the entry with key [k], [None] standing for [end()]. *)
Fixpoint umap_find (k : K) (m : umap) : option (K * V) :=
  match m with
  | [] => None
  | e :: rest => if K_eq_dec k (fst e) then Some e else umap_find k rest
  end.

(** [Map::try_emplace]: insert only when the key is absent; returns the
    (possibly pre-existing) entry and whether an insertion took place. *)
Definition umap_try_emplace (k : K) (v : V) (m : umap) : umap * ((K * V) * bool) :=
  match umap_find k m with
  | Some e => (m, (e, false))
  | None => (m ++ [(k, v)], ((k, v), true))
  end.

(** [Map::erase(key)]: removes the elements with key [k], returns how many. *)
Definition umap_erase (k : K) (m : umap) : umap * Z :=
  let m' := filter (fun e => if K_eq_dec k (fst e) then false else true) m in
  (m', Z.of_nat (length m - length m')).

(** [std::erase_if(map, op)]: removes the entries satisfying [op]. *)
Definition umap_erase_if (op : K * V -> bool) (m : umap) : umap * Z :=
  let m' := filter (fun e => negb (op e)) m in
  (m', Z.of_nat (length m - length m')).

(** ** [internal::map_lock_t]: one shard *)

(** [std::unique_ptr<Map> map_]: [None] until the first write. *)
Definition shard : Type := option umap.

(** [find]: [Ret None] is the [nullptr] handle, [Ret (Some v)] a copy of
    the stored handle.  [auto it = map_->find(key); return it->second;]
    dereferences [end()] when the key is absent. *)
Definition shard_find (k : K) (s : shard) : outcome (option V) :=
  match s with
  | None => Ret None
  | Some m =>
      match umap_find k m with
      | Some e => Ret (Some (snd e))
      | None => Undefined
      end
  end.

(** [visit_map]: allocates the map on first use. *)
Definition visit_map (s : shard) : umap :=
  match s with
  | None => []
  | Some m => m
  end.

Definition shard_try_emplace (k : K) (v : V) (s : shard) : shard * ((K * V) * bool) :=
  let '(m', r) := umap_try_emplace k v (visit_map s) in (Some m', r).

Definition shard_erase (k : K) (s : shard) : shard * Z :=
  match s with
  | None => (None, 0)
  | Some m => let '(m', c) := umap_erase k m in (Some m', c)
  end.

Definition shard_erase_if (op : K * V -> bool) (s : shard) : shard * Z :=
  match s with
  | None => (None, 0)
  | Some m => let '(m', c) := umap_erase_if op m in (Some m', c)
  end.

(** Visitors of the non-const [for_each]: they receive [pair<const K, V>&],
    may update the value and thread their own captured state [S].  The
    [if constexpr (requires { op(e) == true; })] test selects between a
    boolean-producing visitor and one whose result is ignored. *)
Inductive visitor (S : Type) : Type :=
| BoolVisitor : (S -> K -> V -> S * V * bool) -> visitor S
| VoidVisitor : (S -> K -> V -> S * V) -> visitor S.

(** The range-for loop of [for_each]. *)
Fixpoint for_each_loop {S : Type} (op : visitor S) (st : S) (m : umap) : S * umap :=
  match m with
  | [] => (st, [])
  | (k, v) :: rest =>
      match op with
      | BoolVisitor _ f =>
          let '(st1, v1, b) := f st k v in
          if negb b
          then (st1, (k, v1) :: rest) (* [break;] -- the [return false;] after it is unreachable *)
          else let '(st2, rest') := for_each_loop op st1 rest in (st2, (k, v1) :: rest')
      | VoidVisitor _ f =>
          let '(st1, v1) := f st k v in
          let '(st2, rest') := for_each_loop op st1 rest in (st2, (k, v1) :: rest')
      end
  end.

(** [for_each]: returns the visitor state, the shard, and the [bool] result. *)
Definition shard_for_each {S : Type} (op : visitor S) (st : S) (s : shard) : S * shard * bool :=
  match s with
  | None => (st, None, true)
  | Some m => let '(st', m') := for_each_loop op st m in (st', Some m', true)
  end.

(** Visitors of the const [for_each]: they see [const pair<const K, V>&]. *)
Inductive cvisitor (S : Type) : Type :=
| CBoolVisitor : (S -> K -> V -> S * bool) -> cvisitor S
| CVoidVisitor : (S -> K -> V -> S) -> cvisitor S.

Fixpoint for_each_const_loop {S : Type} (op : cvisitor S) (st : S) (m : umap) : S :=
  match m with
  | [] => st
  | (k, v) :: rest =>
      match op with
      | CBoolVisitor _ f =>
          let '(st1, b) := f st k v in
          if negb b then st1 (* [break;] *)
          else for_each_const_loop op st1 rest
      | CVoidVisitor _ f => for_each_const_loop op (f st k v) rest
      end
  end.

Definition shard_for_each_const {S : Type} (op : cvisitor S) (st : S) (s : shard) : S * bool :=
  match s with
  | None => (st, true)
  | Some m => (for_each_const_loop op st m, true)
  end.


(** ** [map_sharded_t] *)

(** [shards_] and the atomic [size_]. *)
Record map_sharded : Type := mk_map_sharded {
  shards_ : list shard;
  size_ : Z
}.

(** [map_sharded_t(size_t shard_num) : shards_(shard_num) {}]; the
    [std::atomic<size_t>] is value-initialised to 0 (C++20). *)
Definition new_map_sharded (shard_num : nat) : map_sharded :=
  mk_map_sharded (repeat None shard_num) 0.

(** [Hash{}(key)], a [size_t]. *)
Definition hash_of (k : K) : Z := to_size_t (hash k).

(** [get_sharded]: the index [hash % shards_.size()]; [% 0] is undefined. *)
Definition get_sharded (h : Z) (shards : list shard) : outcome nat :=
  let n := length shards in
  if (n =? 0)%nat then Undefined
  else Ret (Z.to_nat (h mod Z.of_nat n)).

(** Writing back the shard at index [i]. *)
Fixpoint upd (i : nat) (s : shard) (l : list shard) : list shard :=
  match l, i with
  | [], _ => []
  | _ :: rest, O => s :: rest
  | x :: rest, S j => x :: upd j s rest
  end.

Definition try_emplace (k : K) (v : V) (m : map_sharded)
  : outcome (map_sharded * ((K * V) * bool)) :=
  i <- get_sharded (hash_of k) (shards_ m) ;;
  let '(s', result) := shard_try_emplace k v (nth i (shards_ m) None) in
  Ret (mk_map_sharded (upd i s' (shards_ m))
         (if snd result then to_size_t (size_ m + 1) else size_ m),
       result).

Definition size (m : map_sharded) : Z := size_ m.

Definition find (k : K) (m : map_sharded) : outcome (option V) :=
  i <- get_sharded (hash_of k) (shards_ m) ;;
  shard_find k (nth i (shards_ m) None).

Definition erase (k : K) (m : map_sharded) : outcome (map_sharded * Z) :=
  i <- get_sharded (hash_of k) (shards_ m) ;;
  let '(s', result) := shard_erase k (nth i (shards_ m) None) in
  Ret (mk_map_sharded (upd i s' (shards_ m))
         (if result =? 0 then size_ m else to_size_t (size_ m - result)),
       result).

(** The [op] argument of [erase_if] and [erase_one] is a function object of
    some type [F]; [call op] is the predicate its (const) call operator
    computes.  Each iteration passes [std::forward<Func>(op)] to the shard,
    whose [erase_if] forwards it once more into [std::erase_if], whose
    predicate parameter is taken by value -- and only when the shard's
    storage is allocated.  [fwd op] is what initialising that parameter
    leaves in [op]: [op] itself when [op] is an lvalue ([Func] deduced as a
    reference: the parameter is a copy), the moved-from object when [op] is
    an rvalue ([Func] a class type: the parameter is move-constructed). *)
Definition after_shard_erase_if {F : Type} (fwd : F -> F) (s : shard) (op : F) : F :=
  match s with
  | None => op
  | Some _ => fwd op
  end.

(** The loop of [erase_if]: [total] is the [int] accumulator, [sz] the
    counter. *)
Fixpoint erase_if_loop {F : Type} (call : F -> K * V -> bool) (fwd : F -> F) (op : F)
  (shards : list shard) (total sz : Z) : list shard * Z * Z :=
  match shards with
  | [] => ([], total, sz)
  | s :: rest =>
      let '(s', result) := shard_erase_if (call op) s in
      let op1 := after_shard_erase_if fwd s op in
      let total1 := to_int (to_size_t (total + result)) in
      let sz1 := to_size_t (sz - result) in
      let '(rest', total2, sz2) := erase_if_loop call fwd op1 rest total1 sz1 in
      (s' :: rest', total2, sz2)
  end.

Definition erase_if {F : Type} (call : F -> K * V -> bool) (fwd : F -> F) (op : F)
  (m : map_sharded) : map_sharded * Z :=
  let '(shards', total, sz) := erase_if_loop call fwd op (shards_ m) 0 (size_ m) in
  (mk_map_sharded shards' sz, to_size_t total).

Fixpoint erase_one_loop {F : Type} (call : F -> K * V -> bool) (fwd : F -> F) (op : F)
  (shards : list shard) (total sz : Z) : list shard * Z * Z :=
  match shards with
  | [] => ([], total, sz)
  | s :: rest =>
      let '(s', result) := shard_erase_if (call op) s in
      let op1 := after_shard_erase_if fwd s op in
      if negb (result =? 0)
      then (s' :: rest, to_int (to_size_t (total + result)), to_size_t (sz - result)) (* [break;] *)
      else let '(rest', total2, sz2) := erase_one_loop call fwd op1 rest total sz in
           (s' :: rest', total2, sz2)
  end.

Definition erase_one {F : Type} (call : F -> K * V -> bool) (fwd : F -> F) (op : F)
  (m : map_sharded) : map_sharded * Z :=
  let '(shards', total, sz) := erase_one_loop call fwd op (shards_ m) 0 (size_ m) in
  (mk_map_sharded shards' sz, to_size_t total).

Fixpoint for_each_shards {S : Type} (op : visitor S) (st : S) (shards : list shard)
  : S * list shard :=
  match shards with
  | [] => (st, [])
  | s :: rest =>
      let '(st1, s', completed) := shard_for_each op st s in
      if negb completed then (st1, s' :: rest) (* [break;] *)
      else let '(st2, rest') := for_each_shards op st1 rest in (st2, s' :: rest')
  end.

(** [for_each] returns [void]; the visitor's state is what it observes. *)
Definition for_each {S : Type} (op : visitor S) (st : S) (m : map_sharded) : S * map_sharded :=
  let '(st', shards') := for_each_shards op st (shards_ m) in
  (st', mk_map_sharded shards' (size_ m)).

(** The lambda of [copy]: [if (op(e.second)) ret.push_back(e.second);]. *)
Definition copy_visitor (op : V -> bool) : cvisitor (list V) :=
  CVoidVisitor _ (fun ret _ v => if op v then ret ++ [v] else ret).

Fixpoint copy_loop (op : V -> bool) (shards : list shard) (ret : list V) : list V :=
  match shards with
  | [] => ret
  | s :: rest => copy_loop op rest (fst (shard_for_each_const (copy_visitor op) ret s))
  end.

(** [copy<T>(op)]; the [reserve] call only affects capacity. *)
Definition copy (op : V -> bool) (m : map_sharded) : list V :=
  copy_loop op (shards_ m) [].

(** [copy<T>()]. *)
Definition copy_all (m : map_sharded) : list V :=
  copy (fun _ => true) m.

(** ** Sequences of calls *)

Inductive op : Type :=
| OpTryEmplace (k : K) (v : V)
| OpFind (k : K)
| OpErase (k : K)
| OpEraseIf (F : Type) (call : F -> K * V -> bool) (fwd : F -> F) (p : F)
| OpEraseOne (F : Type) (call : F -> K * V -> bool) (fwd : F -> F) (p : F)
| OpForEach (S : Type) (st : S) (vis : visitor S)
| OpCopy (p : V -> bool).

(** The live entries, shard after shard, in iteration order. *)
Definition entries (m : map_sharded) : list (K * V) :=
  flat_map visit_map (shards_ m).

Definition live (m : map_sharded) : nat := length (entries m).

(** One call, with the number of insertions it made ([inserted == true])
    and the number of entries it removed. *)
Definition step (o : op) (m : map_sharded) : outcome (map_sharded * nat * nat) :=
  match o with
  | OpTryEmplace k v =>
      r <- try_emplace k v m ;;
      Ret (fst r, (if snd (snd r) then 1 else 0)%nat, 0%nat)
  | OpFind k => _ <- find k m ;; Ret (m, 0%nat, 0%nat)
  | OpErase k =>
      r <- erase k m ;; Ret (fst r, 0%nat, (live m - live (fst r))%nat)
  | OpEraseIf _ call fwd p =>
      let m' := fst (erase_if call fwd p m) in Ret (m', 0%nat, (live m - live m')%nat)
  | OpEraseOne _ call fwd p =>
      let m' := fst (erase_one call fwd p m) in Ret (m', 0%nat, (live m - live m')%nat)
  | OpForEach _ st vis => Ret (snd (for_each vis st m), 0%nat, 0%nat)
  | OpCopy p => Ret (m, 0%nat, 0%nat)
  end.

(** Runs a sequence of calls; returns the final state, the number [N] of
    insertions and the number [M] of removed entries. *)
Fixpoint run (ops : list op) (m : map_sharded) : outcome (map_sharded * nat * nat) :=
  match ops with
  | [] => Ret (m, 0%nat, 0%nat)
  | o :: rest =>
      r1 <- step o m ;;
      let '(m1, n1, d1) := r1 in
      r2 <- run rest m1 ;;
      let '(m2, n2, d2) := r2 in
      Ret (m2, (n1 + n2)%nat, (d1 + d2)%nat)
  end.

(** How many times the shard at index [i] goes from unallocated to
    allocated along a sequence of calls. *)
Definition is_none {A : Type} (o : option A) : bool :=
  match o with None => true | Some _ => false end.

Fixpoint allocations (i : nat) (ops : list op) (m : map_sharded) : nat :=
  match ops with
  | [] => 0
  | o :: rest =>
      match step o m with
      | Undefined => 0
      | Ret (m1, _, _) =>
          ((if is_none (nth i (shards_ m) None) && negb (is_none (nth i (shards_ m1) None))
            then 1 else 0) + allocations i rest m1)%nat
      end
  end.

End MapSharded.

(** ** Concrete instances: [Z] keys and handles, [std::hash] as the identity *)

Definition zmap : Type := @map_sharded Z Z.

Definition id_hash (k : Z) : Z := k.

Definition znew (n : nat) : zmap := new_map_sharded n.

(** One shard holding the keys [0 .. 2^31 - 1], all mapped to handle 0. *)
Definition big_shard : @umap Z Z := map (fun i => (Z.of_nat i, 0)) (seq 0 (2 ^ 31)).

(** A run on four shards: insert 1, 5, 2; erase 2; find 1. *)
Definition zops : list (@op Z Z) :=
  [OpTryEmplace 1 10; OpTryEmplace 5 50; OpTryEmplace 2 20; OpErase 2; OpFind 1].

Definition zfinal : zmap := mk_map_sharded [None; Some [(1, 10); (5, 50)]; Some []; None] 2.

(** The stopping visitor: records the visited key and asks to stop. *)
Definition stop_visitor : @visitor Z Z (list Z) :=
  BoolVisitor _ (fun st k v => (st ++ [k], v, false)).

(** The lambda [[keep = std::vector<int>{1, 2}](auto& e) { return
    std::find(keep.begin(), keep.end(), e.first) == keep.end(); }]: its
    object is the captured vector; it holds for the keys not in [keep]. *)
Definition keep_call (keep : list Z) (e : Z * Z) : bool :=
  negb (existsb (Z.eqb (fst e)) keep).

(** Passed as a temporary, the lambda is moved from, and so is its
    captured vector: a moved-from [std::vector] is empty. *)
Definition keep_moved (keep : list Z) : list Z := [].

(** Passed as an lvalue, the lambda is copied and stays as it was. *)
Definition keep_copied (keep : list Z) : list Z := keep.

(** Two shards, identity hash: key 2 in shard 0, key 1 in shard 1. *)
Definition two_keys_ops : list (@op Z Z) := [OpTryEmplace 2 20; OpTryEmplace 1 10].

Definition two_keys : zmap := mk_map_sharded [Some [(2, 20)]; Some [(1, 10)]] 2.

(** * Properties *)

Section Facts.

Context {K V : Type}.
Variable K_eq_dec : forall x y : K, {x = y} + {x <> y}.
Variable hash : K -> Z.

Local Abbreviation umap := (@umap K V).
Local Abbreviation shard := (@shard K V).
Local Abbreviation map_sharded := (@map_sharded K V).
Local Abbreviation umap_find := (umap_find K_eq_dec).
Local Abbreviation umap_try_emplace := (umap_try_emplace K_eq_dec).
Local Abbreviation umap_erase := (umap_erase K_eq_dec).
Local Abbreviation shard_find := (shard_find K_eq_dec).
Local Abbreviation shard_try_emplace := (shard_try_emplace K_eq_dec).
Local Abbreviation shard_erase := (shard_erase K_eq_dec).
Local Abbreviation hash_of := (hash_of hash).
Local Abbreviation try_emplace := (try_emplace K_eq_dec hash).
Local Abbreviation find := (find K_eq_dec hash).
Local Abbreviation erase := (erase K_eq_dec hash).
Local Abbreviation step := (step K_eq_dec hash).
Local Abbreviation run := (run K_eq_dec hash).
Local Abbreviation allocations := (allocations K_eq_dec hash).
Local Abbreviation new_map_sharded := (@new_map_sharded K V).

(** Keys held by each shard, and the invariant of a reachable state: every
    shard is key-unique and the counter is the number of live entries. *)
Definition keys_of (l : list shard) : list (list K) :=
  map (fun s => map fst (visit_map s)) l.

Definition inv (m : map_sharded) : Prop :=
  size_ m = to_size_t (Z.of_nat (live m)) /\
  Forall (@NoDup K) (keys_of (shards_ m)).

(** Routing: every key held by shard [j] hashes to index [j]. *)
Definition routed_shards (l : list shard) : Prop :=
  forall j k, In k (map fst (visit_map (nth j l None))) ->
  get_sharded (hash_of k) l = Ret j.

Definition routed (m : map_sharded) : Prop := routed_shards (shards_ m).

(** ** Writing back one shard *)

Lemma length_upd : forall i (s : shard) l, length (upd i s l) = length l.
Proof. induction i; destruct l; simpl; auto. Qed.

Lemma nth_upd_same : forall i (s : shard) l,
  (i < length l)%nat -> nth i (upd i s l) None = s.
Proof.
  induction i; destruct l; simpl; intros; try lia; auto.
  apply IHi; lia.
Qed.

Lemma nth_upd_other : forall i j (s : shard) l,
  i <> j -> nth j (upd i s l) None = nth j l None.
Proof.
  induction i; destruct l, j; simpl; intros; auto; try congruence.
Qed.

Lemma upd_nth_self : forall i (l : list shard), upd i (nth i l None) l = l.
Proof. induction i; destruct l; simpl; auto; rewrite IHi; auto. Qed.

Lemma length_flat_map_upd : forall i (s : shard) l,
  (i < length l)%nat ->
  (length (flat_map visit_map (upd i s l)) + length (visit_map (nth i l None))
   = length (flat_map visit_map l) + length (visit_map s))%nat.
Proof.
  induction i; destruct l; simpl; intros; try lia.
  - rewrite !length_app; lia.
  - rewrite !length_app. specialize (IHi s l ltac:(lia)). lia.
Qed.


Lemma Forall_upd : forall i (s : shard) l,
  Forall (@NoDup K) (keys_of l) -> NoDup (map fst (visit_map s)) ->
  Forall (@NoDup K) (keys_of (upd i s l)).
Proof.
  induction i; destruct l; simpl; intros Hl Hs; auto; inversion Hl; subst; constructor; auto.
Qed.

Lemma Forall_nth_keys : forall i (l : list shard),
  Forall (@NoDup K) (keys_of l) -> NoDup (map fst (visit_map (nth i l None))).
Proof.
  induction i; destruct l; simpl; intros Hl; try constructor; inversion Hl; subst; auto.
Qed.


(** ** The underlying map *)

Lemma umap_find_some : forall k (m : umap) e,
  umap_find k m = Some e -> In e m /\ fst e = k.
Proof.
  induction m as [|a m IH]; simpl; intros e H; [discriminate|].
  destruct (K_eq_dec k (fst a)) as [E|E].
  - inversion H; subst; auto.
  - apply IH in H; tauto.
Qed.

Lemma umap_find_none : forall k (m : umap),
  umap_find k m = None -> ~ In k (map fst m).
Proof.
  induction m as [|a m IH]; simpl; intros H; auto.
  destruct (K_eq_dec k (fst a)) as [E|E]; [discriminate|].
  intros [E'|E']; [congruence|]. exact (IH H E').
Qed.

Lemma length_filter_le : forall (f : K * V -> bool) (m : umap),
  (length (filter f m) <= length m)%nat.
Proof. induction m; simpl; auto; destruct (f a); simpl; lia. Qed.

Lemma NoDup_keys_filter : forall (f : K * V -> bool) (m : umap),
  NoDup (map fst m) -> NoDup (map fst (filter f m)).
Proof.
  induction m as [|a m IH]; simpl; intros H; auto.
  inversion H as [|x l Hnot Hnd]; subst.
  destruct (f a); simpl; auto.
  constructor; auto.
  intros Hin. apply Hnot. rewrite in_map_iff in *.
  destruct Hin as [e [He Hin]]. apply filter_In in Hin. exists e; tauto.
Qed.

Lemma filter_keep_all : forall (f : K * V -> bool) (m : umap),
  (forall e, In e m -> f e = true) -> filter f m = m.
Proof.
  induction m as [|a m IH]; simpl; intros H; auto.
  rewrite H by auto. rewrite IH; auto.
Qed.

(** ** Shard operations *)

Lemma shard_erase_spec : forall k (s s' : shard) r,
  shard_erase k s = (s', r) ->
  (length (visit_map s') <= length (visit_map s))%nat /\
  r = Z.of_nat (length (visit_map s) - length (visit_map s')) /\
  (NoDup (map fst (visit_map s)) -> NoDup (map fst (visit_map s'))) /\
  is_none s' = is_none s.
Proof.
  unfold shard_erase, umap_erase. intros k [m|] s' r H; inversion H; subst; simpl;
    repeat split; auto using length_filter_le, NoDup_keys_filter.
Qed.

Lemma shard_erase_if_spec : forall p (s s' : shard) r,
  shard_erase_if p s = (s', r) ->
  (length (visit_map s') <= length (visit_map s))%nat /\
  r = Z.of_nat (length (visit_map s) - length (visit_map s')) /\
  (NoDup (map fst (visit_map s)) -> NoDup (map fst (visit_map s'))) /\
  is_none s' = is_none s.
Proof.
  unfold shard_erase_if, umap_erase_if. intros p [m|] s' r H; inversion H; subst; simpl;
    repeat split; auto using length_filter_le, NoDup_keys_filter.
Qed.

Lemma for_each_loop_keys : forall (S : Type) (op : visitor S) st (m : umap),
  map fst (snd (for_each_loop op st m)) = map fst m.
Proof.
  intros S op st m. revert st.
  induction m as [|[k v] rest IH]; intros st; simpl; auto.
  destruct op as [f|f].
  - destruct (f st k v) as [[st1 v1] b]. destruct b; simpl; auto.
    specialize (IH st1).
    destruct (for_each_loop (BoolVisitor S f) st1 rest) as [st2 rest']. simpl in *.
    rewrite IH; auto.
  - destruct (f st k v) as [st1 v1].
    specialize (IH st1).
    destruct (for_each_loop (VoidVisitor S f) st1 rest) as [st2 rest']. simpl in *.
    rewrite IH; auto.
Qed.

Lemma shard_for_each_spec : forall (S : Type) (op : visitor S) st (s : shard) st' s' c,
  shard_for_each op st s = (st', s', c) ->
  map fst (visit_map s') = map fst (visit_map s) /\ is_none s' = is_none s /\ c = true.
Proof.
  unfold shard_for_each. intros S op st [m|] st' s' c H.
  - pose proof (for_each_loop_keys S op st m) as HK.
    destruct (for_each_loop op st m) as [st1 m1]. inversion H; subst. simpl in *; auto.
  - inversion H; subst; auto.
Qed.

Lemma for_each_shards_spec : forall (S : Type) (op : visitor S) st (l : list shard) st' l',
  for_each_shards op st l = (st', l') ->
  keys_of l' = keys_of l /\ map is_none l' = map is_none l.
Proof.
  intros S op st l. revert st.
  induction l as [|s rest IH]; simpl; intros st st' l' H.
  - inversion H; subst; auto.
  - destruct (shard_for_each op st s) as [[st1 s1] c] eqn:E.
    apply shard_for_each_spec in E as [E1 [E2 E3]]. subst c. simpl in H.
    destruct (for_each_shards op st1 rest) as [st2 rest'] eqn:E.
    inversion H; subst. apply IH in E as [E3 E4]. simpl.
    rewrite E1, E2, E3, E4; auto.
Qed.

Lemma length_flat_map_keys : forall (l : list shard),
  length (flat_map visit_map l) = length (concat (keys_of l)).
Proof.
  induction l; simpl; auto. rewrite !length_app, length_map, IHl; auto.
Qed.


(** ** Multi-shard loops *)

Lemma erase_if_loop_spec : forall F (call : F -> K * V -> bool) fwd (l : list shard) p total sz l' t' sz',
  erase_if_loop call fwd p l total sz = (l', t', sz') ->
  map is_none l' = map is_none l /\
  (length (flat_map visit_map l') <= length (flat_map visit_map l))%nat /\
  (Forall (@NoDup K) (keys_of l) -> Forall (@NoDup K) (keys_of l')) /\
  (to_size_t sz = sz ->
   sz' = to_size_t (sz - Z.of_nat (length (flat_map visit_map l)
                                    - length (flat_map visit_map l')))).
Proof.
  intros F call fwd l.
  induction l as [|s rest IH]; simpl; intros p total sz l' t' sz' H.
  - inversion H; subst. simpl. repeat split; auto.
    intros Hsz. rewrite Z.sub_0_r; auto.
  - destruct (shard_erase_if (call p) s) as [s1 r] eqn:Es.
    apply shard_erase_if_spec in Es as [Hle [Hr [Hnd Hn]]].
    destruct (erase_if_loop call fwd (after_shard_erase_if fwd s p) rest
                (to_int (to_size_t (total + r))) (to_size_t (sz - r)))
      as [[rest' t2] sz2] eqn:E.
    inversion H; subst; clear H.
    apply IH in E as [E1 [E2 [E3 E4]]]. simpl.
    rewrite E1, Hn. repeat split.
    + rewrite !length_app. lia.
    + intros Hf. inversion Hf; subst. constructor; auto.
    + intros Hsz. rewrite E4 by (unfold to_size_t; apply Zmod_mod).
      unfold to_size_t. rewrite Zminus_mod_idemp_l. f_equal.
      rewrite !length_app. lia.
Qed.

Lemma erase_one_loop_spec : forall F (call : F -> K * V -> bool) fwd (l : list shard) p total sz l' t' sz',
  erase_one_loop call fwd p l total sz = (l', t', sz') ->
  map is_none l' = map is_none l /\
  (length (flat_map visit_map l') <= length (flat_map visit_map l))%nat /\
  (Forall (@NoDup K) (keys_of l) -> Forall (@NoDup K) (keys_of l')) /\
  (to_size_t sz = sz ->
   sz' = to_size_t (sz - Z.of_nat (length (flat_map visit_map l)
                                    - length (flat_map visit_map l')))).
Proof.
  intros F call fwd l.
  induction l as [|s rest IH]; simpl; intros p total sz l' t' sz' H.
  - inversion H; subst. simpl. repeat split; auto.
    intros Hsz. rewrite Z.sub_0_r; auto.
  - destruct (shard_erase_if (call p) s) as [s1 r] eqn:Es.
    apply shard_erase_if_spec in Es as [Hle [Hr [Hnd Hn]]].
    destruct (negb (r =? 0)) eqn:Hb.
    + inversion H; subst; clear H. simpl. rewrite Hn. repeat split.
      * rewrite !length_app. lia.
      * intros Hf. inversion Hf; subst. constructor; auto.
      * intros Hsz. f_equal. rewrite !length_app. lia.
    + destruct (erase_one_loop call fwd (after_shard_erase_if fwd s p) rest total sz)
        as [[rest' t2] sz2] eqn:E.
      inversion H; subst; clear H.
      apply negb_false_iff, Z.eqb_eq in Hb.
      apply IH in E as [E1 [E2 [E3 E4]]]. simpl.
      rewrite E1, Hn. repeat split.
      * rewrite !length_app. lia.
      * intros Hf. inversion Hf; subst. constructor; auto.
      * intros Hsz. rewrite E4 by exact Hsz. f_equal. rewrite !length_app. lia.
Qed.

Lemma get_sharded_lt : forall h (l : list shard) i,
  get_sharded h l = Ret i -> (i < length l)%nat.
Proof.
  unfold get_sharded. intros h l i H.
  destruct (Nat.eqb_spec (length l) 0) as [E|E]; [discriminate|].
  inversion H; subst.
  pose proof (Z.mod_pos_bound h (Z.of_nat (length l)) ltac:(lia)). lia.
Qed.

Lemma to_size_t_idem : forall z, to_size_t (to_size_t z) = to_size_t z.
Proof. intros z. unfold to_size_t. apply Zmod_mod. Qed.

(** ** Each call preserves the invariant *)

Lemma try_emplace_inv : forall k v (m m' : map_sharded) r,
  try_emplace k v m = Ret (m', r) -> inv m ->
  inv m' /\ live m' = (live m + (if snd r then 1 else 0))%nat /\
  length (shards_ m') = length (shards_ m) /\
  (forall i, is_none (nth i (shards_ m) None) = false ->
             is_none (nth i (shards_ m') None) = false).
Proof.
  intros k v m m' r. unfold try_emplace.
  destruct (get_sharded (hash_of k) (shards_ m)) as [i|] eqn:Hi; simpl; [|discriminate].
  apply get_sharded_lt in Hi.
  unfold shard_try_emplace, umap_try_emplace.
  set (s := nth i (shards_ m) None).
  intros H [Hsz Hnd].
  pose proof (length_flat_map_upd i (Some (visit_map s)) (shards_ m) Hi) as HL1.
  pose proof (Forall_nth_keys i (shards_ m) Hnd) as Hs.
  destruct (umap_find k (visit_map s)) as [e|] eqn:Hf; simpl in H;
    inversion H; subst; clear H; unfold inv, live, entries; simpl.
  - pose proof (length_flat_map_upd i (Some (visit_map s)) (shards_ m) Hi) as HL.
    simpl in HL. fold s in HL.
    repeat split.
    + rewrite Hsz. unfold live, entries. do 2 f_equal. lia.
    + apply Forall_upd; auto.
    + lia.
    + apply length_upd.
    + intros j Hj. destruct (Nat.eq_dec i j) as [->|Hne].
      * rewrite nth_upd_same; auto.
      * rewrite nth_upd_other; auto.
  - pose proof (length_flat_map_upd i (@Some umap (visit_map s ++ [(k, v)])) (shards_ m) Hi) as HL.
    simpl in HL. fold s in HL. rewrite length_app in HL. simpl in HL.
    repeat split.
    + rewrite Hsz. unfold live, entries, to_size_t.
      rewrite Zplus_mod_idemp_l. f_equal. lia.
    + apply Forall_upd; auto. simpl. rewrite map_app. simpl.
      apply NoDup_app; auto.
      * constructor; auto. constructor.
      * intros a Ha [Ea|[]]. subst a. exact (umap_find_none _ _ Hf Ha).
    + lia.
    + apply length_upd.
    + intros j Hj. destruct (Nat.eq_dec i j) as [->|Hne].
      * rewrite nth_upd_same; auto.
      * rewrite nth_upd_other; auto.
Qed.


Lemma map_is_none_upd : forall i (s : shard) l,
  is_none s = is_none (nth i l None) -> map is_none (upd i s l) = map is_none l.
Proof.
  induction i; destruct l; simpl; intros H; auto.
  - rewrite H; auto.
  - rewrite IHi; auto.
Qed.

Lemma nth_is_none : forall i (l l' : list shard),
  map is_none l' = map is_none l -> is_none (nth i l' None) = is_none (nth i l None).
Proof.
  induction i; destruct l, l'; simpl; intros H; try discriminate; auto.
  - inversion H; auto.
  - inversion H; auto.
Qed.

Lemma try_emplace_alloc : forall k v (m m' : map_sharded) r i,
  try_emplace k v m = Ret (m', r) ->
  is_none (nth i (shards_ m) None) = false -> is_none (nth i (shards_ m') None) = false.
Proof.
  intros k v m m' r j. unfold try_emplace.
  destruct (get_sharded (hash_of k) (shards_ m)) as [i|] eqn:Hi; simpl; [|discriminate].
  apply get_sharded_lt in Hi.
  destruct (shard_try_emplace k v (nth i (shards_ m) None)) as [s1 r1] eqn:Es.
  intros H Hj. inversion H; subst; clear H. simpl.
  destruct (Nat.eq_dec i j) as [->|Hne].
  - rewrite nth_upd_same by auto. unfold shard_try_emplace in Es.
    destruct (umap_try_emplace k v (visit_map (nth j (shards_ m) None))).
    inversion Es; auto.
  - rewrite nth_upd_other; auto.
Qed.

Lemma erase_inv : forall k (m m' : map_sharded) r,
  erase k m = Ret (m', r) -> inv m ->
  inv m' /\ (live m' <= live m)%nat /\ r = Z.of_nat (live m - live m') /\
  map is_none (shards_ m') = map is_none (shards_ m).
Proof.
  intros k m m' r. unfold erase.
  destruct (get_sharded (hash_of k) (shards_ m)) as [i|] eqn:Hi; simpl; [|discriminate].
  apply get_sharded_lt in Hi.
  set (s := nth i (shards_ m) None).
  destruct (shard_erase k s) as [s1 r1] eqn:Es.
  apply shard_erase_spec in Es as [Hle [Hr [Hnd1 Hn]]].
  intros H [Hsz Hnd]. inversion H; subst; clear H.
  pose proof (length_flat_map_upd i s1 (shards_ m) Hi) as HL. fold s in HL.
  pose proof (Forall_nth_keys i (shards_ m) Hnd) as Hs. fold s in Hs.
  unfold inv, live, entries in *; simpl.
  repeat split.
  - destruct (Z.eqb_spec (Z.of_nat (length (visit_map s) - length (visit_map s1))) 0) as [E|E].
    + rewrite Hsz. do 2 f_equal. lia.
    + rewrite Hsz. unfold to_size_t. rewrite Zminus_mod_idemp_l. f_equal. lia.
  - apply Forall_upd; auto.
  - lia.
  - f_equal. lia.
  - apply map_is_none_upd. auto.
Qed.

Lemma erase_if_inv : forall F (call : F -> K * V -> bool) fwd p (m : map_sharded),
  inv m ->
  inv (fst (erase_if call fwd p m)) /\ (live (fst (erase_if call fwd p m)) <= live m)%nat /\
  map is_none (shards_ (fst (erase_if call fwd p m))) = map is_none (shards_ m).
Proof.
  intros F call fwd p m [Hsz Hnd]. unfold erase_if.
  destruct (erase_if_loop call fwd p (shards_ m) 0 (size_ m)) as [[l' t'] sz'] eqn:E.
  apply erase_if_loop_spec in E as [E1 [E2 [E3 E4]]]. simpl.
  unfold inv, live, entries in *; simpl.
  repeat split; auto.
  rewrite E4 by (rewrite Hsz; apply to_size_t_idem).
  rewrite Hsz. unfold to_size_t. rewrite Zminus_mod_idemp_l. f_equal. lia.
Qed.

Lemma erase_one_inv : forall F (call : F -> K * V -> bool) fwd p (m : map_sharded),
  inv m ->
  inv (fst (erase_one call fwd p m)) /\ (live (fst (erase_one call fwd p m)) <= live m)%nat /\
  map is_none (shards_ (fst (erase_one call fwd p m))) = map is_none (shards_ m).
Proof.
  intros F call fwd p m [Hsz Hnd]. unfold erase_one.
  destruct (erase_one_loop call fwd p (shards_ m) 0 (size_ m)) as [[l' t'] sz'] eqn:E.
  apply erase_one_loop_spec in E as [E1 [E2 [E3 E4]]]. simpl.
  unfold inv, live, entries in *; simpl.
  repeat split; auto.
  rewrite E4 by (rewrite Hsz; apply to_size_t_idem).
  rewrite Hsz. unfold to_size_t. rewrite Zminus_mod_idemp_l. f_equal. lia.
Qed.

Lemma for_each_inv : forall (S : Type) (vis : visitor S) st (m : map_sharded),
  inv m ->
  inv (snd (for_each vis st m)) /\ live (snd (for_each vis st m)) = live m /\
  map is_none (shards_ (snd (for_each vis st m))) = map is_none (shards_ m).
Proof.
  intros S vis st m [Hsz Hnd]. unfold for_each.
  destruct (for_each_shards vis st (shards_ m)) as [st' l'] eqn:E.
  apply for_each_shards_spec in E as [E1 E2]. simpl.
  assert (HL : length (flat_map visit_map l') = length (flat_map visit_map (shards_ m)))
    by (rewrite !length_flat_map_keys, E1; auto).
  unfold inv, live, entries in *; simpl.
  rewrite HL, E1, E2. auto.
Qed.


Lemma length_map_is_none : forall (l l' : list shard),
  map is_none l' = map is_none l -> length l' = length l.
Proof.
  intros l l' H. apply (f_equal (@length bool)) in H. rewrite !length_map in H. exact H.
Qed.

Lemma step_inv : forall o (m m' : map_sharded) n d,
  step o m = Ret (m', n, d) -> inv m ->
  inv m' /\ (live m' + d = live m + n)%nat /\ length (shards_ m') = length (shards_ m).
Proof.
  intros o m m' n d H Hm. destruct o; simpl in H.
  - destruct (try_emplace k v m) as [[m1 r]|] eqn:E; simpl in H; [|discriminate].
    inversion H; subst; clear H.
    apply try_emplace_inv in E as [E1 [E2 [E3 _]]]; auto.
    repeat split; try apply E1; auto. simpl. lia.
  - destruct (find k m); simpl in H; [|discriminate].
    inversion H; subst; auto.
  - destruct (erase k m) as [[m1 r]|] eqn:E; simpl in H; [|discriminate].
    inversion H; subst; clear H.
    apply erase_inv in E as [E1 [E2 [E3 E4]]]; auto. simpl.
    repeat split; try apply E1; try lia. apply length_map_is_none; auto.
  - inversion H; subst; clear H.
    destruct (erase_if_inv _ call fwd p m Hm) as [E1 [E2 E3]].
    repeat split; try apply E1; try lia. apply length_map_is_none; auto.
  - inversion H; subst; clear H.
    destruct (erase_one_inv _ call fwd p m Hm) as [E1 [E2 E3]].
    repeat split; try apply E1; try lia. apply length_map_is_none; auto.
  - inversion H; subst; clear H.
    destruct (for_each_inv S vis st m Hm) as [E1 [E2 E3]].
    repeat split; try apply E1; try lia. apply length_map_is_none; auto.
  - inversion H; subst; auto.
Qed.

Lemma run_inv : forall ops (m m' : map_sharded) n d,
  run ops m = Ret (m', n, d) -> inv m ->
  inv m' /\ (live m' + d = live m + n)%nat /\ length (shards_ m') = length (shards_ m).
Proof.
  induction ops as [|o rest IH]; simpl; intros m m' n d H Hm.
  - inversion H; subst. auto.
  - destruct (step o m) as [[[m1 n1] d1]|] eqn:E1; simpl in H; [|discriminate].
    destruct (run rest m1) as [[[m2 n2] d2]|] eqn:E2; simpl in H; [|discriminate].
    inversion H; subst; clear H.
    apply step_inv in E1 as [F1 [F2 F3]]; auto.
    apply IH in E2 as [G1 [G2 G3]]; auto.
    refine (conj G1 (conj _ _)); lia.
Qed.

Lemma new_map_sharded_inv : forall n, inv (new_map_sharded n) /\ live (new_map_sharded n) = 0%nat.
Proof.
  intros n.
  assert (H1 : flat_map visit_map (repeat (@None umap) n) = []) by (induction n; simpl; auto).
  assert (H2 : Forall (@NoDup K) (keys_of (repeat (@None umap) n)))
    by (induction n; simpl; auto; constructor; auto; constructor).
  unfold inv, live, entries, new_map_sharded; simpl. rewrite H1. simpl.
  split; [split; [reflexivity | exact H2] | reflexivity].
Qed.

(** ** Allocation of shard storage *)

Lemma step_is_none : forall o (m m' : map_sharded) n d,
  step o m = Ret (m', n, d) -> (forall k v, o <> OpTryEmplace k v) ->
  map is_none (shards_ m') = map is_none (shards_ m).
Proof.
  intros o m m' n d H Ho. destruct o; simpl in H.
  - exfalso. exact (Ho k v eq_refl).
  - destruct (find k m); simpl in H; [|discriminate]. inversion H; subst; auto.
  - destruct (erase k m) as [[m1 r]|] eqn:E; simpl in H; [|discriminate].
    inversion H; subst; clear H. revert E. unfold erase.
    destruct (get_sharded (hash_of k) (shards_ m)) as [i|]; simpl; [|discriminate].
    destruct (shard_erase k (nth i (shards_ m) None)) as [s1 r1] eqn:Es.
    apply shard_erase_spec in Es as [_ [_ [_ Hn]]].
    intros E. inversion E; subst; simpl. apply map_is_none_upd; auto.
  - inversion H; subst; clear H. unfold erase_if.
    destruct (erase_if_loop call fwd p (shards_ m) 0 (size_ m)) as [[l' t'] sz'] eqn:E.
    apply erase_if_loop_spec in E. simpl. tauto.
  - inversion H; subst; clear H. unfold erase_one.
    destruct (erase_one_loop call fwd p (shards_ m) 0 (size_ m)) as [[l' t'] sz'] eqn:E.
    apply erase_one_loop_spec in E. simpl. tauto.
  - inversion H; subst; clear H. unfold for_each.
    destruct (for_each_shards vis st (shards_ m)) as [st' l'] eqn:E.
    apply for_each_shards_spec in E. simpl. tauto.
  - inversion H; subst; auto.
Qed.

Lemma step_alloc_mono : forall o (m m' : map_sharded) n d i,
  step o m = Ret (m', n, d) ->
  is_none (nth i (shards_ m) None) = false -> is_none (nth i (shards_ m') None) = false.
Proof.
  intros o m m' n d i H Hi.
  destruct o eqn:Eo.
  1: { simpl in H. destruct (try_emplace k v m) as [[m1 r]|] eqn:E; simpl in H; [|discriminate].
       inversion H; subst. eapply try_emplace_alloc; eauto. }
  all: rewrite (nth_is_none i (shards_ m) (shards_ m')); auto;
      eapply step_is_none; [exact H | intros; discriminate].
Qed.

Lemma allocations_allocated : forall ops (m : map_sharded) i,
  is_none (nth i (shards_ m) None) = false -> allocations i ops m = 0%nat.
Proof.
  induction ops as [|o rest IH]; simpl; intros m i Hi; auto.
  destruct (step o m) as [[[m1 n1] d1]|] eqn:E; auto.
  rewrite Hi. simpl. apply IH. eapply step_alloc_mono; eauto.
Qed.


(** ** Helpers for the claims *)

Lemma get_sharded_ret : forall h (l : list shard),
  (1 <= length l)%nat -> get_sharded h l = Ret (Z.to_nat (h mod Z.of_nat (length l))).
Proof.
  intros h l Hl. unfold get_sharded.
  destruct (Nat.eqb_spec (length l) 0); [lia | auto].
Qed.

Lemma for_each_const_copy : forall p (m : umap) ret,
  for_each_const_loop (copy_visitor p) ret m = ret ++ filter p (map snd m).
Proof.
  intros p m. unfold copy_visitor.
  induction m as [|[k v] rest IH]; simpl; intros ret.
  - rewrite app_nil_r; auto.
  - rewrite IH. destruct (p v); simpl; auto. rewrite <- app_assoc; auto.
Qed.

Lemma copy_loop_spec : forall p (l : list shard) ret,
  copy_loop p l ret = ret ++ filter p (map snd (flat_map visit_map l)).
Proof.
  induction l as [|s rest IH]; simpl; intros ret.
  - rewrite app_nil_r; auto.
  - rewrite IH. destruct s as [m|]; simpl.
    + rewrite for_each_const_copy, map_app, filter_app, app_assoc; auto.
    + auto.
Qed.

Lemma filter_true : forall (l : list V), filter (fun _ => true) l = l.
Proof. induction l; simpl; auto; rewrite IHl; auto. Qed.



Lemma shard_erase_if_nomatch : forall p (s : shard),
  (forall e, In e (visit_map s) -> p e = false) -> shard_erase_if p s = (s, 0).
Proof.
  intros p [m|] H; simpl; auto.
  unfold umap_erase_if. rewrite filter_keep_all.
  - rewrite Nat.sub_diag. auto.
  - intros e He. rewrite H; auto.
Qed.

Lemma run_from_new : forall n ops (m : map_sharded) N M,
  run ops (new_map_sharded n) = Ret (m, N, M) ->
  inv m /\ (live m + M = N)%nat /\ length (shards_ m) = n.
Proof.
  intros n ops m N M H.
  destruct (new_map_sharded_inv n) as [H1 H2].
  apply run_inv in H as [E1 [E2 E3]]; auto.
  rewrite H2 in E2. unfold new_map_sharded in E3. simpl in E3.
  rewrite repeat_length in E3. auto.
Qed.

Lemma size_live : forall (m : map_sharded),
  inv m -> Z.of_nat (live m) < 2 ^ 64 -> size m = Z.of_nat (live m).
Proof.
  intros m [Hsz _] Hlt. unfold size. rewrite Hsz. unfold to_size_t.
  apply Z.mod_small. lia.
Qed.


Lemma filter_false : forall (l : umap), filter (fun e => negb ((fun _ => true) e)) l = [].
Proof. induction l; simpl; auto. Qed.

(** [erase_one] on a single shard: the shard's count goes through the [int]
    accumulator before being returned as a [size_t]. *)
Lemma erase_one_single_shard : forall F (call : F -> K * V -> bool) fwd p (l : umap) sz,
  snd (erase_one call fwd p (mk_map_sharded [Some l] sz)) =
  let r := Z.of_nat (length l - length (filter (fun e => negb (call p e)) l)) in
  if r =? 0 then 0 else to_size_t (to_int (to_size_t r)).
Proof.
  intros F call fwd p l sz. unfold erase_one. simpl.
  destruct (Z.of_nat (length l - length (filter (fun e => negb (call p e)) l)) =? 0) eqn:E;
    simpl; auto.
Qed.


Lemma shard_erase_if_all : forall (l : umap),
  shard_erase_if (fun _ => true) (Some l) = (Some [], Z.of_nat (length l)).
Proof.
  intros l. unfold shard_erase_if, umap_erase_if. rewrite filter_false.
  simpl. rewrite Nat.sub_0_r. auto.
Qed.

Lemma erase_one_all_single : forall (l : umap) sz,
  snd (erase_one (fun (_ : unit) _ => true) (fun o => o) tt (mk_map_sharded [Some l] sz)) =
  if Z.of_nat (length l) =? 0 then 0 else to_size_t (to_int (to_size_t (Z.of_nat (length l)))).
Proof.
  intros l sz. rewrite erase_one_single_shard, filter_false. simpl.
  rewrite Nat.sub_0_r. auto.
Qed.

(** ** Claims *)

(** C3: the shard of a key [k] is [hash(k) mod shard_count]; it lies in
    [0, shard_count) and is the same in every state of the instance, and
    [find], [try_emplace] and [erase] use that shard and only that one. *)
Theorem shard_routing : forall n ops (m : map_sharded) N M k,
  (1 <= n)%nat ->
  run ops (new_map_sharded n) = Ret (m, N, M) ->
  let i := Z.to_nat (hash_of k mod Z.of_nat n) in
  (i < n)%nat /\
  get_sharded (hash_of k) (shards_ m) = Ret i /\
  find k m = shard_find k (nth i (shards_ m) None) /\
  (forall v m' r j, try_emplace k v m = Ret (m', r) -> j <> i ->
                    nth j (shards_ m') None = nth j (shards_ m) None) /\
  (forall m' r j, erase k m = Ret (m', r) -> j <> i ->
                  nth j (shards_ m') None = nth j (shards_ m) None).
Proof.
  intros n ops m N M k Hn H i.
  apply run_from_new in H as [_ [_ Hlen]].
  assert (Hg : get_sharded (hash_of k) (shards_ m) = Ret i)
    by (rewrite get_sharded_ret by lia; rewrite Hlen; auto).
  repeat split.
  - pose proof (Z.mod_pos_bound (hash_of k) (Z.of_nat n) ltac:(lia)). unfold i. lia.
  - exact Hg.
  - unfold find. rewrite Hg. auto.
  - intros v m' r j. unfold try_emplace. rewrite Hg. simpl.
    destruct (shard_try_emplace k v (nth i (shards_ m) None)) as [s1 r1].
    intros E Hj. inversion E; subst. simpl. apply nth_upd_other. auto.
  - intros m' r j. unfold erase. rewrite Hg. simpl.
    destruct (shard_erase k (nth i (shards_ m) None)) as [s1 r1].
    intros E Hj. inversion E; subst. simpl. apply nth_upd_other. auto.
Qed.

(** C4: from a fresh map, after calls making [N] insertions and removing
    [M] entries in total, [size()] is [N - M]. *)
Theorem size_after_calls : forall n ops (m : map_sharded) N M,
  run ops (new_map_sharded n) = Ret (m, N, M) ->
  Z.of_nat (N - M) < 2 ^ 64 ->
  (M <= N)%nat /\ size m = Z.of_nat (N - M).
Proof.
  intros n ops m N M H Hlt.
  apply run_from_new in H as [Hinv [Hl _]].
  split; [lia|].
  replace (N - M)%nat with (live m) in * by lia.
  apply size_live; auto.
Qed.


(** C5: [try_emplace] delegates to the owning shard, returns its result, and
    adds exactly 1 (modulo 2^64) to the counter iff the shard inserted; on an
    existing key it returns that entry with [inserted = false] and leaves the
    whole map, counter included, unchanged. *)
Theorem try_emplace_delegates : forall k v (m : map_sharded),
  (1 <= length (shards_ m))%nat ->
  let i := Z.to_nat (hash_of k mod Z.of_nat (length (shards_ m))) in
  let s := nth i (shards_ m) None in
  try_emplace k v m =
    Ret (mk_map_sharded (upd i (fst (shard_try_emplace k v s)) (shards_ m))
           (if snd (snd (shard_try_emplace k v s)) then to_size_t (size_ m + 1) else size_ m),
         snd (shard_try_emplace k v s)) /\
  (snd (snd (shard_try_emplace k v s)) = true <-> umap_find k (visit_map s) = None) /\
  (forall e, umap_find k (visit_map s) = Some e -> try_emplace k v m = Ret (m, (e, false))).
Proof.
  intros k v m Hn i s.
  assert (H1 : try_emplace k v m =
    Ret (mk_map_sharded (upd i (fst (shard_try_emplace k v s)) (shards_ m))
           (if snd (snd (shard_try_emplace k v s)) then to_size_t (size_ m + 1) else size_ m),
         snd (shard_try_emplace k v s))).
  { unfold try_emplace. rewrite get_sharded_ret by exact Hn. simpl.
    fold i s. destruct (shard_try_emplace k v s); auto. }
  split; [exact H1 | split].
  - unfold shard_try_emplace, umap_try_emplace.
    destruct (umap_find k (visit_map s)); simpl; split; congruence.
  - intros e Hf. rewrite H1.
    destruct s as [m0|] eqn:Es; [|discriminate].
    unfold shard_try_emplace, umap_try_emplace. simpl in *. rewrite Hf. simpl.
    unfold s in Es. rewrite <- Es, upd_nth_self. destruct m; auto.
Qed.

(** C6: on a reachable map whose entry count fits in [size_t], [copy] with
    the always-true predicate returns the value handle of every live entry,
    each exactly once (shard after shard, in iteration order), and its
    length is [size()]. *)
Theorem copy_complete : forall n ops (m : map_sharded) N M,
  run ops (new_map_sharded n) = Ret (m, N, M) ->
  Z.of_nat (live m) < 2 ^ 64 ->
  copy (fun _ => true) m = map snd (entries m) /\
  Z.of_nat (length (copy (fun _ => true) m)) = size m.
Proof.
  intros n ops m N M H Hlt.
  apply run_from_new in H as [Hinv _].
  assert (Hc : copy (fun _ => true) m = map snd (entries m))
    by (unfold copy; rewrite copy_loop_spec, filter_true; auto).
  split; auto.
  rewrite Hc, length_map, size_live; auto.
Qed.

(** C9: on an unallocated shard, [find], [erase], [erase_if] and both
    [for_each] report absent / 0 / completed and leave it unallocated;
    [try_emplace] always leaves the shard allocated; over any sequence of
    calls only [try_emplace] allocates, and each shard is allocated at most
    once. *)
Theorem lazy_shard_storage :
  (forall k, shard_find k (None : shard) = Ret None) /\
  (forall k, shard_erase k (None : shard) = (None, 0)) /\
  (forall p, shard_erase_if p (None : shard) = (None, 0)) /\
  (forall (S : Type) (vis : visitor S) st, shard_for_each vis st (None : shard) = (st, None, true)) /\
  (forall (S : Type) (vis : cvisitor S) st, shard_for_each_const vis st (None : shard) = (st, true)) /\
  (forall k v (s : shard), is_none (fst (shard_try_emplace k v s)) = false) /\
  (forall o (m m' : map_sharded) n d i,
     step o m = Ret (m', n, d) ->
     is_none (nth i (shards_ m) None) = true ->
     is_none (nth i (shards_ m') None) = false ->
     exists k v, o = OpTryEmplace k v) /\
  (forall ops (m : map_sharded) i, (allocations i ops m <= 1)%nat).
Proof.
  repeat split.
  - intros k v s. unfold shard_try_emplace.
    destruct (umap_try_emplace k v (visit_map s)). auto.
  - intros o m m' n d i H Hn Hs.
    destruct o; eauto; exfalso;
      (assert (E : map is_none (shards_ m') = map is_none (shards_ m))
         by (eapply step_is_none; [exact H | intros; discriminate]));
      rewrite (nth_is_none i (shards_ m) (shards_ m') E) in Hs; congruence.
  - induction ops as [|o rest IH]; simpl; intros m i; [lia|].
    destruct (step o m) as [[[m1 n1] d1]|] eqn:E; [|lia].
    destruct (is_none (nth i (shards_ m) None)) eqn:Hm; simpl.
    + destruct (is_none (nth i (shards_ m1) None)) eqn:Hm1; simpl.
      * apply IH.
      * rewrite allocations_allocated; auto.
    + apply IH.
Qed.

(** C10: [copy<T>()] is [copy<T>] with the always-true predicate. *)
Theorem copy_default_predicate : forall (m : map_sharded),
  copy_all m = copy (fun _ => true) m.
Proof. reflexivity. Qed.

(** ** Routing invariant *)

Lemma get_sharded_length : forall h (l l' : list shard),
  length l' = length l -> get_sharded h l' = get_sharded h l.
Proof. intros h l l' E. unfold get_sharded. rewrite E. auto. Qed.

Lemma routed_shards_incl : forall (l l' : list shard),
  length l' = length l ->
  (forall j, incl (map fst (visit_map (nth j l' None))) (map fst (visit_map (nth j l None)))) ->
  routed_shards l -> routed_shards l'.
Proof.
  intros l l' Hlen Hincl Hr j k Hk.
  rewrite (get_sharded_length _ l l' Hlen). apply Hr, Hincl, Hk.
Qed.

Lemma nth_keys_of : forall j (l : list shard),
  nth j (keys_of l) [] = map fst (visit_map (nth j l None)).
Proof. induction j; destruct l; simpl; auto. Qed.

Lemma after_shard_erase_if_fixed : forall F (fwd : F -> F) (s : shard) p,
  fwd p = p -> after_shard_erase_if fwd s p = p.
Proof. intros F fwd [u|] p H; simpl; auto. Qed.

Lemma erase_if_loop_nth : forall F (call : F -> K * V -> bool) fwd (l : list shard) p total sz
  l' t' sz' j,
  erase_if_loop call fwd p l total sz = (l', t', sz') ->
  exists q, visit_map (nth j l' None) = filter (fun e => negb (q e)) (visit_map (nth j l None)).
Proof.
  intros F call fwd l. induction l as [|s rest IH]; simpl; intros p total sz l' t' sz' j H.
  - inversion H; subst. exists (fun _ => false). destruct j; auto.
  - destruct (shard_erase_if (call p) s) as [s1 r] eqn:Es.
    destruct (erase_if_loop call fwd (after_shard_erase_if fwd s p) rest
                (to_int (to_size_t (total + r))) (to_size_t (sz - r)))
      as [[rest' t2] sz2] eqn:E.
    inversion H; subst; clear H. destruct j; simpl.
    + exists (call p). destruct s; inversion Es; auto.
    + eapply IH; eauto.
Qed.

(** When forwarding leaves [op] as it was, every shard runs [call op]. *)
Lemma erase_if_loop_nth_fixed : forall F (call : F -> K * V -> bool) fwd (l : list shard) p
  total sz l' t' sz' j,
  fwd p = p ->
  erase_if_loop call fwd p l total sz = (l', t', sz') ->
  visit_map (nth j l' None) = filter (fun e => negb (call p e)) (visit_map (nth j l None)).
Proof.
  intros F call fwd l. induction l as [|s rest IH]; simpl; intros p total sz l' t' sz' j Hp H.
  - inversion H; subst. destruct j; auto.
  - rewrite (after_shard_erase_if_fixed F fwd s p Hp) in H.
    destruct (shard_erase_if (call p) s) as [s1 r] eqn:Es.
    destruct (erase_if_loop call fwd p rest (to_int (to_size_t (total + r))) (to_size_t (sz - r)))
      as [[rest' t2] sz2] eqn:E.
    inversion H; subst; clear H. destruct j; simpl.
    + destruct s; inversion Es; auto.
    + eapply IH; eauto.
Qed.

Lemma erase_one_loop_nth : forall F (call : F -> K * V -> bool) fwd (l : list shard) p total sz
  l' t' sz' j,
  erase_one_loop call fwd p l total sz = (l', t', sz') ->
  incl (visit_map (nth j l' None)) (visit_map (nth j l None)).
Proof.
  intros F call fwd l. induction l as [|s rest IH]; simpl; intros p total sz l' t' sz' j H.
  - inversion H; subst. apply incl_refl.
  - destruct (shard_erase_if (call p) s) as [s1 r] eqn:Es.
    assert (Hs : incl (visit_map s1) (visit_map s)).
    { destruct s; inversion Es; subst; simpl; [|apply incl_refl].
      intros e He. apply filter_In in He. tauto. }
    destruct (negb (r =? 0)).
    + inversion H; subst. destruct j; simpl; auto. apply incl_refl.
    + destruct (erase_one_loop call fwd (after_shard_erase_if fwd s p) rest total sz)
        as [[rest' t2] sz2] eqn:E.
      inversion H; subst. destruct j; simpl; auto. eapply IH; eauto.
Qed.

Lemma step_routed : forall o (m m' : map_sharded) n d,
  step o m = Ret (m', n, d) -> routed m -> routed m'.
Proof.
  intros o m m' n d H Hr. unfold routed in *. destruct o; simpl in H.
  - destruct (try_emplace k v m) as [[m1 r]|] eqn:E; simpl in H; [|discriminate].
    inversion H; subst; clear H. revert E. unfold try_emplace.
    destruct (get_sharded (hash_of k) (shards_ m)) as [i|] eqn:Hi; simpl; [|discriminate].
    pose proof (get_sharded_lt _ _ _ Hi) as Hlt.
    unfold shard_try_emplace, umap_try_emplace.
    destruct (umap_find k (visit_map (nth i (shards_ m) None))) as [e|] eqn:Hf;
      intros E; inversion E; subst; clear E; simpl;
      intros j k' Hk'; rewrite (get_sharded_length _ (shards_ m)) by apply length_upd;
      (destruct (Nat.eq_dec i j) as [<-|Hne];
       [rewrite nth_upd_same in Hk' by auto | rewrite nth_upd_other in Hk' by auto; auto]).
    + simpl in Hk'. auto.
    + simpl in Hk'. rewrite map_app in Hk'. apply in_app_or in Hk' as [Hk'|[<-|[]]]; auto.
  - destruct (find k m); simpl in H; [|discriminate]. inversion H; subst; auto.
  - destruct (erase k m) as [[m1 r]|] eqn:E; simpl in H; [|discriminate].
    inversion H; subst; clear H. revert E. unfold erase.
    destruct (get_sharded (hash_of k) (shards_ m)) as [i|] eqn:Hi; simpl; [|discriminate].
    pose proof (get_sharded_lt _ _ _ Hi) as Hlt.
    destruct (shard_erase k (nth i (shards_ m) None)) as [s1 r1] eqn:Es.
    intros E. inversion E; subst; clear E. simpl.
    apply (routed_shards_incl (shards_ m)); auto using length_upd.
    intros j. destruct (Nat.eq_dec i j) as [<-|Hne].
    + rewrite nth_upd_same by auto. apply incl_map.
      destruct (nth i (shards_ m) None); inversion Es; subst; simpl; [|apply incl_refl].
      intros e He. apply filter_In in He. tauto.
    + rewrite nth_upd_other by auto. apply incl_refl.
  - inversion H; subst; clear H. unfold erase_if.
    destruct (erase_if_loop call fwd p (shards_ m) 0 (size_ m)) as [[l' t'] sz'] eqn:E. simpl.
    apply (routed_shards_incl (shards_ m)); auto.
    + apply length_map_is_none. apply (erase_if_loop_spec _ _ _ _ _ _ _ _ _ _ E).
    + intros j. destruct (erase_if_loop_nth _ _ _ _ _ _ _ _ _ _ j E) as [q Eq].
      rewrite Eq. apply incl_map. intros e He. apply filter_In in He. tauto.
  - inversion H; subst; clear H. unfold erase_one.
    destruct (erase_one_loop call fwd p (shards_ m) 0 (size_ m)) as [[l' t'] sz'] eqn:E. simpl.
    apply (routed_shards_incl (shards_ m)); auto.
    + apply length_map_is_none. apply (erase_one_loop_spec _ _ _ _ _ _ _ _ _ _ E).
    + intros j. apply incl_map. eapply erase_one_loop_nth; eauto.
  - inversion H; subst; clear H. unfold for_each.
    destruct (for_each_shards vis st (shards_ m)) as [st' l'] eqn:E. simpl.
    apply for_each_shards_spec in E as [E1 E2].
    apply (routed_shards_incl (shards_ m)); auto.
    + apply length_map_is_none; auto.
    + intros j. rewrite <- !nth_keys_of, E1. apply incl_refl.
  - inversion H; subst; auto.
Qed.

Lemma run_routed : forall ops (m m' : map_sharded) n d,
  run ops m = Ret (m', n, d) -> routed m -> routed m'.
Proof.
  induction ops as [|o rest IH]; simpl; intros m m' n d H Hm.
  - inversion H; subst. auto.
  - destruct (step o m) as [[[m1 n1] d1]|] eqn:E1; simpl in H; [|discriminate].
    destruct (run rest m1) as [[[m2 n2] d2]|] eqn:E2; simpl in H; [|discriminate].
    inversion H; subst; clear H.
    eapply IH; [exact E2 | eapply step_routed; eauto].
Qed.

Lemma new_map_sharded_routed : forall n, routed (new_map_sharded n).
Proof.
  intros n j k Hk. exfalso. unfold new_map_sharded in Hk. simpl in Hk.
  rewrite nth_repeat in Hk. exact Hk.
Qed.

Lemma reachable_props : forall n ops (m : map_sharded) N M,
  run ops (new_map_sharded n) = Ret (m, N, M) ->
  inv m /\ routed m /\ length (shards_ m) = n.
Proof.
  intros n ops m N M H.
  pose proof (run_routed _ _ _ _ _ H (new_map_sharded_routed n)).
  apply run_from_new in H as [H1 [_ H3]]. auto.
Qed.

(** ** Helpers for the further properties *)

Lemma map_fst_entries : forall (l : list shard),
  map fst (flat_map visit_map l) = concat (keys_of l).
Proof. induction l; simpl; auto. rewrite map_app, IHl. auto. Qed.

Lemma NoDup_concat_disjoint : forall (L : list (list K)),
  Forall (@NoDup K) L ->
  (forall i j x, In x (nth i L []) -> In x (nth j L []) -> i = j) ->
  NoDup (concat L).
Proof.
  induction L as [|a L IH]; simpl; intros Hnd Hdis; [constructor|].
  inversion Hnd; subst. apply NoDup_app; auto.
  - apply IH; auto. intros i j x Hi Hj. specialize (Hdis (S i) (S j) x Hi Hj). lia.
  - intros x Ha Hc. apply in_concat in Hc as [l [Hl Hx]].
    apply (In_nth L l []) in Hl as [j [_ Hj]].
    specialize (Hdis 0%nat (S j) x Ha). simpl in Hdis. rewrite Hj in Hdis.
    specialize (Hdis Hx). discriminate.
Qed.

Lemma routed_unique_index : forall (l : list shard) i j k,
  routed_shards l ->
  In k (map fst (visit_map (nth i l None))) ->
  In k (map fst (visit_map (nth j l None))) -> i = j.
Proof.
  intros l i j k Hr Hi Hj.
  apply Hr in Hi. apply Hr in Hj. rewrite Hi in Hj. congruence.
Qed.

Lemma entries_keys_NoDup : forall (m : map_sharded),
  inv m -> routed m -> NoDup (map fst (entries m)).
Proof.
  intros m [_ Hnd] Hr. unfold entries. rewrite map_fst_entries.
  apply NoDup_concat_disjoint; auto.
  intros i j x Hi Hj. rewrite !nth_keys_of in *.
  eapply routed_unique_index; eauto.
Qed.

Lemma in_entries_nth : forall (l : list shard) e,
  In e (flat_map visit_map l) -> exists j, In e (visit_map (nth j l None)).
Proof.
  intros l e He. apply in_flat_map in He as [s [Hs He]].
  apply (In_nth l s None) in Hs as [j [_ Hj]]. exists j. rewrite Hj. auto.
Qed.

Lemma umap_find_in : forall k v (l : umap),
  NoDup (map fst l) -> In (k, v) l -> umap_find k l = Some (k, v).
Proof.
  induction l as [|a rest IH]; simpl; intros Hnd Hin; [contradiction|].
  inversion Hnd as [|x l Hnot Hnd']; subst.
  destruct (K_eq_dec k (fst a)) as [E|E].
  - destruct Hin as [<-|Hin]; auto.
    exfalso. apply Hnot. rewrite <- E. apply (in_map fst) in Hin. exact Hin.
  - destruct Hin as [->|Hin]; [simpl in E; congruence|]. auto.
Qed.

Lemma umap_find_app_none : forall k v (l : umap),
  umap_find k l = None -> umap_find k (l ++ [(k, v)]) = Some (k, v).
Proof.
  induction l as [|a rest IH]; simpl; intros H.
  - destruct (K_eq_dec k k); congruence.
  - destruct (K_eq_dec k (fst a)); [discriminate|]. auto.
Qed.

Lemma flat_map_nth_filter : forall (f : K * V -> bool) (l l' : list shard),
  length l' = length l ->
  (forall j, visit_map (nth j l' None) = filter f (visit_map (nth j l None))) ->
  flat_map visit_map l' = filter f (flat_map visit_map l).
Proof.
  induction l as [|s rest IH]; destruct l' as [|s' rest']; simpl; intros Hlen H;
    try discriminate; auto.
  rewrite filter_app, <- (IH rest'); auto.
  - rewrite (H 0%nat). auto.
  - intros j. exact (H (S j)).
Qed.

Lemma length_filter_key : forall k (l : umap),
  NoDup (map fst l) ->
  (In k (map fst l) ->
   length l = S (length (filter (fun e => if K_eq_dec k (fst e) then false else true) l))) /\
  (~ In k (map fst l) ->
   filter (fun e => if K_eq_dec k (fst e) then false else true) l = l).
Proof.
  intros k l Hnd. split.
  - induction l as [|a rest IH]; simpl; intros Hin; [contradiction|].
    inversion Hnd as [|x l Hnot Hnd']; subst.
    destruct (K_eq_dec k (fst a)) as [E|E]; simpl.
    + rewrite filter_keep_all; auto.
      intros e He. destruct (K_eq_dec k (fst e)) as [E'|E']; auto.
      exfalso. apply Hnot. rewrite <- E, E'. apply in_map; auto.
    + destruct Hin as [Hin|Hin]; [congruence|]. rewrite IH; auto.
  - intros Hin. apply filter_keep_all. intros e He.
    destruct (K_eq_dec k (fst e)) as [E|E]; auto.
    exfalso. apply Hin. rewrite E. apply in_map; auto.
Qed.

(** [erase(k)] on a key-unique, routed map: exactly the entries with key [k]
    go, the shard index is [k]'s, and the count is the length difference. *)
Lemma erase_entries : forall k (m : map_sharded),
  (1 <= length (shards_ m))%nat -> inv m -> routed m ->
  exists m' r, erase k m = Ret (m', r) /\
    entries m' = filter (fun e => if K_eq_dec k (fst e) then false else true) (entries m) /\
    r = Z.of_nat (live m - live m') /\ inv m' /\ routed m'.
Proof.
  intros k m Hn Hinv Hr.
  destruct (erase k m) as [[m' r]|] eqn:E.
  2:{ exfalso. revert E. unfold erase. rewrite get_sharded_ret by exact Hn. simpl.
      destruct (shard_erase k _). discriminate. }
  exists m', r. split; auto.
  pose proof (erase_inv k m m' r E Hinv) as [I1 [_ [I3 _]]].
  assert (Hstep : step (OpErase k) m = Ret (m', 0%nat, (live m - live m')%nat))
    by (simpl; rewrite E; auto).
  pose proof (step_routed _ _ _ _ _ Hstep Hr) as R1.
  split; auto.
  revert E. unfold erase.
  destruct (get_sharded (hash_of k) (shards_ m)) as [i|] eqn:Hi; simpl; [|discriminate].
  pose proof (get_sharded_lt _ _ _ Hi) as Hlt.
  destruct (shard_erase k (nth i (shards_ m) None)) as [s1 r1] eqn:Es.
  intros E. inversion E; subst m' r; clear E.
  unfold entries. simpl. apply flat_map_nth_filter; [apply length_upd|].
  intros j. destruct (Nat.eq_dec i j) as [<-|Hne].
  - rewrite nth_upd_same by auto.
    destruct (nth i (shards_ m) None); inversion Es; auto.
  - rewrite nth_upd_other by auto. symmetry. apply filter_keep_all.
    intros e He. destruct (K_eq_dec k (fst e)) as [Ek|Ek]; auto.
    exfalso. apply Hne. subst k.
    assert (Hj : get_sharded (hash_of (fst e)) (shards_ m) = Ret j)
      by (apply (Hr j (fst e)); apply in_map; exact He).
    rewrite Hi in Hj. congruence.
Qed.

(** ** Properties of reachable maps *)

(** A live entry is stored in shard [Hash{}(key) % shard_num]. *)
Theorem entry_in_home_shard : forall n ops (m : map_sharded) N M j e,
  run ops (new_map_sharded n) = Ret (m, N, M) ->
  In e (visit_map (nth j (shards_ m) None)) ->
  j = Z.to_nat (hash_of (fst e) mod Z.of_nat n).
Proof.
  intros n ops m N M j e H He.
  apply reachable_props in H as [_ [Hr Hlen]].
  pose proof (Hr j (fst e) (in_map fst _ _ He)) as Hg.
  unfold get_sharded in Hg. rewrite Hlen in Hg.
  destruct (n =? 0)%nat; inversion Hg; auto.
Qed.

(** No key is live twice, not even in two different shards. *)
Theorem keys_unique : forall n ops (m : map_sharded) N M,
  run ops (new_map_sharded n) = Ret (m, N, M) -> NoDup (map fst (entries m)).
Proof.
  intros n ops m N M H. apply reachable_props in H as [Hi [Hr _]].
  apply entries_keys_NoDup; auto.
Qed.

(** [find] of a live key returns its value. *)
Theorem find_live_entry : forall n ops (m : map_sharded) N M k v,
  run ops (new_map_sharded n) = Ret (m, N, M) ->
  In (k, v) (entries m) -> find k m = Ret (Some v).
Proof.
  intros n ops m N M k v H Hin.
  apply reachable_props in H as [Hinv [Hr _]].
  apply in_entries_nth in Hin as [j Hj].
  assert (Hg : get_sharded (hash_of k) (shards_ m) = Ret j)
    by (apply (Hr j k); apply (in_map fst) in Hj; exact Hj).
  unfold find. rewrite Hg. simpl.
  assert (Hnd : NoDup (map fst (visit_map (nth j (shards_ m) None))))
    by (apply Forall_nth_keys; apply Hinv).
  destruct (nth j (shards_ m) None) as [u|]; simpl in *; [|contradiction].
  rewrite (umap_find_in k v u Hnd Hj). auto.
Qed.

(** After [try_emplace(k, v)] returns [(e, b)], [e] has key [k], it is
    [(k, v)] when [b] is true, and [find(k)] returns [e]'s value. *)
Theorem try_emplace_then_find : forall k v (m m' : map_sharded) e b,
  (1 <= length (shards_ m))%nat ->
  try_emplace k v m = Ret (m', (e, b)) ->
  fst e = k /\ (b = true -> e = (k, v)) /\ find k m' = Ret (Some (snd e)).
Proof.
  intros k v m m' e b Hn. unfold try_emplace.
  pose proof (get_sharded_ret (hash_of k) (shards_ m) Hn) as Hg.
  pose proof (get_sharded_lt _ _ _ Hg) as Hlt.
  rewrite Hg. simpl.
  set (i := Z.to_nat (hash_of k mod Z.of_nat (length (shards_ m)))) in *.
  destruct (shard_try_emplace k v (nth i (shards_ m) None)) as [s' r] eqn:Es.
  intros E; inversion E; subst m' r; clear E.
  unfold find. simpl.
  assert (Hg' : get_sharded (hash_of k) (upd i s' (shards_ m)) = Ret i)
    by (unfold get_sharded in *; rewrite length_upd; exact Hg).
  rewrite Hg'. simpl. rewrite nth_upd_same by exact Hlt.
  unfold shard_try_emplace, umap_try_emplace in Es.
  destruct (umap_find k (visit_map (nth i (shards_ m) None))) as [e0|] eqn:Ef;
    inversion Es; subst; clear Es; simpl.
  - pose proof (umap_find_some _ _ _ Ef) as [_ Hk]. rewrite Ef.
    split; [auto | split; [discriminate | auto]].
  - rewrite umap_find_app_none by exact Ef. auto.
Qed.

(** On a reachable map with at least one shard, [erase(k)] removes exactly
    the entry with key [k], and returns 1 if [k] was live and 0 otherwise. *)
Theorem erase_removes_key : forall n ops (m : map_sharded) N M k,
  run ops (new_map_sharded n) = Ret (m, N, M) -> (1 <= n)%nat ->
  exists m' r, erase k m = Ret (m', r) /\
    entries m' = filter (fun e => if K_eq_dec k (fst e) then false else true) (entries m) /\
    (In k (map fst (entries m)) -> r = 1) /\
    (~ In k (map fst (entries m)) -> r = 0).
Proof.
  intros n ops m N M k H Hn.
  apply reachable_props in H as [Hinv [Hr Hlen]].
  destruct (erase_entries k m ltac:(lia) Hinv Hr) as [m' [r [E [He [Hr' _]]]]].
  exists m', r. split; [exact E|]. split; [exact He|].
  pose proof (entries_keys_NoDup m Hinv Hr) as Hnd.
  destruct (length_filter_key k (entries m) Hnd) as [L1 L2].
  unfold live in Hr'. rewrite He in Hr'. split; intros Hin.
  - rewrite (L1 Hin) in Hr'. rewrite Hr'.
    assert (Hs : forall x, (S x - x = 1)%nat) by lia. rewrite Hs. auto.
  - rewrite (L2 Hin), Nat.sub_diag in Hr'. exact Hr'.
Qed.

(** [erase(k)] right after a [try_emplace(k, v)] that inserted returns 1
    and restores the entries and the counter. *)
Theorem erase_undoes_insert : forall n ops (m m1 : map_sharded) N M k v e,
  run ops (new_map_sharded n) = Ret (m, N, M) ->
  try_emplace k v m = Ret (m1, (e, true)) ->
  exists m2, erase k m1 = Ret (m2, 1) /\ entries m2 = entries m /\ size m2 = size m.
Proof.
  intros n ops m m1 N M k v e H Ht.
  apply reachable_props in H as [Hinv [Hr _]].
  pose proof (try_emplace_inv k v m m1 _ Ht Hinv) as [Hinv1 [Hlive1 [Hlen1 _]]].
  simpl in Hlive1.
  assert (Hs : step (OpTryEmplace k v) m = Ret (m1, 1%nat, 0%nat))
    by (simpl; rewrite Ht; auto).
  pose proof (step_routed _ _ _ _ _ Hs Hr) as Hr1.
  unfold try_emplace in Ht.
  destruct (get_sharded (hash_of k) (shards_ m)) as [i|] eqn:Hi; simpl in Ht; [|discriminate].
  pose proof (get_sharded_lt _ _ _ Hi) as Hlt.
  destruct (shard_try_emplace k v (nth i (shards_ m) None)) as [s' r0] eqn:Es.
  injection Ht as Hm1 Hr0. subst r0.
  unfold shard_try_emplace, umap_try_emplace in Es.
  destruct (umap_find k (visit_map (nth i (shards_ m) None))) as [e0|] eqn:Ef;
    inversion Es; subst s'; clear Es.
  apply umap_find_none in Ef.
  assert (Hsh : shards_ m1 = upd i (Some (visit_map (nth i (shards_ m) None) ++ [(k, v)]))
                                 (shards_ m)) by (rewrite <- Hm1; auto).
  destruct (erase_entries k m1 ltac:(lia) Hinv1 Hr1) as [m2 [r [E2 [He2 [Hr2 [Hinv2 _]]]]]].
  assert (Hent : entries m2 = entries m).
  { rewrite He2. symmetry. unfold entries. apply flat_map_nth_filter; [lia|].
    intros j. rewrite Hsh. destruct (Nat.eq_dec i j) as [<-|Hne].
    - rewrite nth_upd_same by exact Hlt. simpl. rewrite filter_app. simpl.
      destruct (K_eq_dec k k) as [_|C]; [|congruence]. rewrite app_nil_r.
      symmetry. apply filter_keep_all. intros a Ha.
      destruct (K_eq_dec k (fst a)) as [Ek|Ek]; auto.
      exfalso. apply Ef. rewrite Ek. apply in_map. exact Ha.
    - rewrite nth_upd_other by exact Hne. symmetry. apply filter_keep_all.
      intros a Ha. destruct (K_eq_dec k (fst a)) as [Ek|Ek]; auto.
      exfalso. apply Hne. subst k.
      assert (Hj : get_sharded (hash_of (fst a)) (shards_ m) = Ret j)
        by (apply (Hr j (fst a)); apply in_map; exact Ha).
      rewrite Hi in Hj. congruence. }
  assert (Hl : live m2 = live m) by (unfold live; rewrite Hent; auto).
  exists m2. split; [|split; [exact Hent|]].
  - rewrite E2, Hr2, Hl, Hlive1. f_equal. f_equal. lia.
  - unfold size. destruct Hinv2 as [Hz2 _]. destruct Hinv as [Hz _].
    rewrite Hz2, Hz, Hl. auto.
Qed.

(** ** Helpers for the whole-map loops *)

Lemma to_int_small : forall z, 0 <= z < 2 ^ 31 -> to_int (to_size_t z) = z.
Proof.
  intros z Hz. unfold to_int, to_size_t.
  assert (H31 : 2 ^ 31 = 2147483648) by reflexivity.
  assert (H32 : 2 ^ 32 = 4294967296) by reflexivity.
  assert (H64 : 2 ^ 64 = 18446744073709551616) by reflexivity.
  rewrite H31, H32, H64 in *.
  rewrite (Z.mod_small z) by lia. rewrite (Z.mod_small z) by lia.
  destruct (Z.leb_spec 2147483648 z); lia.
Qed.

Lemma erase_if_loop_total : forall F (call : F -> K * V -> bool) fwd (l : list shard) p
  total sz l' t' sz',
  erase_if_loop call fwd p l total sz = (l', t', sz') ->
  0 <= total ->
  total + Z.of_nat (length (flat_map visit_map l) - length (flat_map visit_map l')) < 2 ^ 31 ->
  t' = total + Z.of_nat (length (flat_map visit_map l) - length (flat_map visit_map l')).
Proof.
  intros F call fwd l. induction l as [|s rest IH]; simpl; intros p total sz l' t' sz' H H0 Hb.
  - inversion H; subst. simpl. lia.
  - destruct (shard_erase_if (call p) s) as [s1 r] eqn:Es.
    destruct (erase_if_loop call fwd (after_shard_erase_if fwd s p) rest
                (to_int (to_size_t (total + r))) (to_size_t (sz - r)))
      as [[rest' t2] sz2] eqn:Er.
    inversion H; subst l' t' sz'; clear H. simpl in *.
    pose proof (shard_erase_if_spec _ _ _ _ Es) as [Hle [Hr _]].
    pose proof (erase_if_loop_spec _ _ _ _ _ _ _ _ _ _ Er) as [_ [Hle2 _]].
    rewrite !length_app in *.
    assert (Ht : to_int (to_size_t (total + r)) = total + r) by (apply to_int_small; lia).
    rewrite Ht in Er.
    rewrite (IH _ _ _ _ _ _ Er) by lia. lia.
Qed.

Lemma erase_one_loop_nomatch_id : forall F (call : F -> K * V -> bool) fwd (l : list shard) p
  total sz,
  fwd p = p ->
  (forall e, In e (flat_map visit_map l) -> call p e = false) ->
  erase_one_loop call fwd p l total sz = (l, total, sz).
Proof.
  intros F call fwd l. induction l as [|s rest IH]; simpl; intros p total sz Hp H; auto.
  rewrite shard_erase_if_nomatch by (intros e He; apply H, in_or_app; auto).
  rewrite (after_shard_erase_if_fixed F fwd s p Hp).
  simpl. rewrite IH by (auto; intros e He; apply H, in_or_app; auto). auto.
Qed.

Lemma for_each_loop_void : forall (S : Type) (f : S -> K -> V -> S * V) st (u : umap),
  fst (for_each_loop (VoidVisitor S f) st u)
  = fold_left (fun st e => fst (f st (fst e) (snd e))) u st.
Proof.
  intros S f st u. revert st. induction u as [|[k v] rest IH]; intros st; simpl; auto.
  destruct (f st k v) as [st1 v1] eqn:Ef.
  specialize (IH st1).
  destruct (for_each_loop (VoidVisitor S f) st1 rest) as [st2 rest'] eqn:Er.
  simpl in *. exact IH.
Qed.

Lemma for_each_shards_void : forall (S : Type) (f : S -> K -> V -> S * V) st (l : list shard),
  fst (for_each_shards (VoidVisitor S f) st l)
  = fold_left (fun st e => fst (f st (fst e) (snd e))) (flat_map visit_map l) st.
Proof.
  intros S f st l. revert st. induction l as [|s rest IH]; intros st; simpl; auto.
  destruct (shard_for_each (VoidVisitor S f) st s) as [[st1 s1] c] eqn:Es.
  assert (Hst1 : st1 = fold_left (fun st e => fst (f st (fst e) (snd e))) (visit_map s) st).
  { destruct s as [u|].
    - pose proof (for_each_loop_void S f st u) as H. unfold shard_for_each in Es.
      destruct (for_each_loop (VoidVisitor S f) st u) as [st' u'] eqn:E.
      inversion Es; subst. exact H.
    - inversion Es; auto. }
  pose proof (shard_for_each_spec _ _ _ _ _ _ _ Es) as [_ [_ Hc]]. subst c. simpl.
  specialize (IH st1).
  destruct (for_each_shards (VoidVisitor S f) st1 rest) as [st2 rest'] eqn:Er.
  simpl in *. rewrite fold_left_app, <- Hst1. exact IH.
Qed.

Lemma flat_map_upd_split : forall i (s : shard) (l : list shard),
  (i < length l)%nat -> exists A B,
    flat_map visit_map l = A ++ visit_map (nth i l None) ++ B /\
    flat_map visit_map (upd i s l) = A ++ visit_map s ++ B.
Proof.
  induction i; destruct l as [|s0 rest]; simpl; intros Hlt; try lia.
  - exists [], (flat_map visit_map rest). auto.
  - destruct (IHi s rest ltac:(lia)) as [A [B [H1 H2]]].
    exists (visit_map s0 ++ A), B. rewrite H1, H2, <- !app_assoc. auto.
Qed.

(** ** Properties of the whole-map operations *)

(** When forwarding leaves [op] as it was (an lvalue [op], or one whose
    moved-from state is itself), [erase_if(op)] removes exactly the entries
    satisfying [op]; the others stay, in the same order. *)
Theorem erase_if_filters : forall F (call : F -> K * V -> bool) fwd p (m : map_sharded),
  fwd p = p ->
  entries (fst (erase_if call fwd p m)) = filter (fun e => negb (call p e)) (entries m).
Proof.
  intros F call fwd p m Hp. unfold erase_if.
  destruct (erase_if_loop call fwd p (shards_ m) 0 (size_ m)) as [[l' t'] sz'] eqn:E.
  unfold entries. simpl. apply flat_map_nth_filter.
  - apply length_map_is_none. apply (erase_if_loop_spec _ _ _ _ _ _ _ _ _ _ E).
  - intros j. exact (erase_if_loop_nth_fixed _ _ _ _ _ _ _ _ _ _ j Hp E).
Qed.

(** While the number of removed entries fits in an [int], [erase_if]
    returns that number. *)
Theorem erase_if_returns_count : forall F (call : F -> K * V -> bool) fwd p (m : map_sharded),
  Z.of_nat (live m - live (fst (erase_if call fwd p m))) < 2 ^ 31 ->
  snd (erase_if call fwd p m) = Z.of_nat (live m - live (fst (erase_if call fwd p m))).
Proof.
  intros F call fwd p m. unfold erase_if, live, entries.
  destruct (erase_if_loop call fwd p (shards_ m) 0 (size_ m)) as [[l' t'] sz'] eqn:E.
  simpl. intros Hb.
  rewrite (erase_if_loop_total _ _ _ _ _ _ _ _ _ _ E) by lia.
  unfold to_size_t. rewrite Z.mod_small; [lia|].
  assert (H64 : 2 ^ 31 < 2 ^ 64) by reflexivity. lia.
Qed.

(** When forwarding leaves [op] as it was and no entry satisfies [op],
    [erase_one(op)] returns 0 and leaves both the shards and the counter as
    they were. *)
Theorem erase_one_nomatch_unchanged : forall F (call : F -> K * V -> bool) fwd p (m : map_sharded),
  fwd p = p ->
  (forall e, In e (entries m) -> call p e = false) -> erase_one call fwd p m = (m, 0).
Proof.
  intros F call fwd p [l sz] Hp H. unfold erase_one. simpl.
  rewrite erase_one_loop_nomatch_id by auto. reflexivity.
Qed.

(** With a visitor returning [void], [for_each] visits every live entry,
    shard after shard, in iteration order. *)
Theorem for_each_void_fold : forall (S : Type) (f : S -> K -> V -> S * V) st (m : map_sharded),
  fst (for_each (VoidVisitor S f) st m)
  = fold_left (fun st e => fst (f st (fst e) (snd e))) (entries m) st.
Proof.
  intros S f st m. unfold for_each.
  pose proof (for_each_shards_void S f st (shards_ m)) as H.
  destruct (for_each_shards (VoidVisitor S f) st (shards_ m)) as [st' l'] eqn:E.
  simpl in *. exact H.
Qed.

(** [for_each] may update values but never adds, removes or reorders keys,
    and leaves the counter alone. *)
Theorem for_each_keeps_keys_and_size : forall (S : Type) (vis : visitor S) st (m : map_sharded),
  map fst (entries (snd (for_each vis st m))) = map fst (entries m) /\
  size (snd (for_each vis st m)) = size m.
Proof.
  intros S vis st m. unfold for_each.
  destruct (for_each_shards vis st (shards_ m)) as [st' l'] eqn:E.
  apply for_each_shards_spec in E as [E1 _]. unfold entries, size. simpl.
  rewrite !map_fst_entries, E1. auto.
Qed.

(** [copy(op)] returns the values of the live entries satisfying [op], in
    iteration order. *)
Theorem copy_filters_values : forall p (m : map_sharded),
  copy p m = filter p (map snd (entries m)).
Proof. intros p m. unfold copy, entries. rewrite copy_loop_spec. auto. Qed.

(** [try_emplace] adds [(k, v)] when it reports an insertion and otherwise
    leaves the entries as they were; no other entry is touched. *)
Theorem try_emplace_entries : forall k v (m m' : map_sharded) e b,
  try_emplace k v m = Ret (m', (e, b)) ->
  Permutation (entries m') (if b then (k, v) :: entries m else entries m).
Proof.
  intros k v m m' e b. unfold try_emplace.
  destruct (get_sharded (hash_of k) (shards_ m)) as [i|] eqn:Hi; simpl; [|discriminate].
  apply get_sharded_lt in Hi.
  destruct (shard_try_emplace k v (nth i (shards_ m) None)) as [s' r] eqn:Es.
  intros E. inversion E; subst m' r; clear E.
  destruct (flat_map_upd_split i s' (shards_ m) Hi) as [A [B [H1 H2]]].
  unfold entries. simpl. rewrite H1, H2.
  unfold shard_try_emplace, umap_try_emplace in Es.
  destruct (umap_find k (visit_map (nth i (shards_ m) None))); inversion Es; subst; simpl.
  - apply Permutation_refl.
  - rewrite <- app_assoc. simpl. rewrite (app_assoc A).
    apply Permutation_sym. rewrite (app_assoc A). apply Permutation_middle.
Qed.

End Facts.

(** C1 (code bug): [find] on a key absent from an allocated shard does not
    return the null handle: [auto it = map_->find(key); return it->second;]
    dereferences [end()].  One shard, [try_emplace(1, 10)], then [find(2)];
    the unallocated path does return [nullptr]. *)
Theorem find_absent_key_derefs_end :
  find Z.eq_dec id_hash 2 (znew 1) = Ret None /\
  obind (try_emplace Z.eq_dec id_hash 1 10 (znew 1))
        (fun r => find Z.eq_dec id_hash 2 (fst r)) = Undefined.
Proof. split; reflexivity. Qed.

(** C2 (code bug): a boolean visitor that asks to stop makes the shard's
    loop [break], but the [return false;] after the [break] is unreachable,
    so the shard's [for_each] returns [true] and [map_sharded_t::for_each]
    goes on to the next shard.  Two shards, keys 0 and 1 inserted, a visitor
    that stops at once: both keys are visited. *)
Theorem for_each_stop_not_reported :
  snd (shard_for_each stop_visitor [] (Some [(0, 10)])) = true /\
  obind (try_emplace Z.eq_dec id_hash 0 10 (znew 2))
    (fun r1 => obind (try_emplace Z.eq_dec id_hash 1 11 (fst r1))
      (fun r2 => Ret (fst (for_each stop_visitor [] (fst r2))))) = Ret [0; 1].
Proof. split; reflexivity. Qed.

(** C7 (code bug): [erase_one] accumulates into [auto total = 0], an [int]:
    a shard count of 2^31 comes back as 2^64 - 2^31.  One shard holding
    2^31 entries, predicate always true (a captureless lambda, which a move
    leaves as it was): the shard removes 2^31 entries. *)
Theorem erase_one_int_total :
  snd (shard_erase_if (fun _ => true) (Some big_shard)) = 2 ^ 31 /\
  snd (erase_one (fun (_ : unit) _ => true) (fun o => o) tt
         (mk_map_sharded [Some big_shard] (2 ^ 31))) = 2 ^ 64 - 2 ^ 31.
Proof.
  assert (HL : Z.of_nat (length big_shard) = 2 ^ 31).
  { unfold big_shard. rewrite length_map, length_seq, Nat2Z.inj_pow. reflexivity. }
  split.
  - rewrite shard_erase_if_all. exact HL.
  - rewrite erase_one_all_single, HL. reflexivity.
Qed.

(** C8 (code bug): [erase_if] and [erase_one] pass [std::forward<Func>(op)]
    to every shard, and an allocated shard moves it into [std::erase_if]'s
    by-value predicate.  A temporary lambda is therefore moved from at the
    first allocated shard, and the later shards run the moved-from object.
    Two shards holding keys 2 and 1, and a lambda capturing the vector
    [{1, 2}] by value that holds for the keys not in it: no entry satisfies
    it, yet shard 1 runs it with an empty vector, erases key 1, and both
    calls return 1.  Passed as an lvalue, the same lambda is copied and both
    calls return 0 and change nothing. *)
Theorem erase_counts_moved_predicate :
  run Z.eq_dec id_hash two_keys_ops (znew 2) = Ret (two_keys, 2%nat, 0%nat) /\
  (forall e, In e (entries two_keys) -> keep_call [1; 2] e = false) /\
  erase_if keep_call keep_moved [1; 2] two_keys
    = (mk_map_sharded [Some [(2, 20)]; Some []] 1, 1) /\
  erase_one keep_call keep_moved [1; 2] two_keys
    = (mk_map_sharded [Some [(2, 20)]; Some []] 1, 1) /\
  erase_if keep_call keep_copied [1; 2] two_keys = (two_keys, 0) /\
  erase_one keep_call keep_copied [1; 2] two_keys = (two_keys, 0).
Proof.
  split; [reflexivity |]. split.
  - intros e He. simpl in He. destruct He as [<-|[<-|[]]]; reflexivity.
  - repeat split; reflexivity.
Qed.

(** ** Witnesses: the claims' hypotheses hold on concrete runs *)

Lemma shard_routing_witness :
  (1 <= 4)%nat /\ run Z.eq_dec id_hash zops (znew 4) = Ret (zfinal, 3%nat, 1%nat) /\
  get_sharded (hash_of id_hash 5) (shards_ zfinal) = Ret 1%nat /\
  find Z.eq_dec id_hash 5 zfinal = shard_find Z.eq_dec 5 (Some [(1, 10); (5, 50)]).
Proof.
  pose proof (shard_routing Z.eq_dec id_hash 4 zops zfinal 3 1 5 ltac:(lia) eq_refl) as H.
  cbv zeta in H. destruct H as [_ [H1 [H2 _]]].
  split; [lia | split; [reflexivity | split; [exact H1 | exact H2]]].
Defined.

Lemma size_after_calls_witness :
  run Z.eq_dec id_hash zops (znew 4) = Ret (zfinal, 3%nat, 1%nat) /\
  Z.of_nat (3 - 1) < 2 ^ 64 /\ size zfinal = 2.
Proof.
  split; [reflexivity | split; [lia |]].
  exact (proj2 (size_after_calls Z.eq_dec id_hash 4 zops zfinal 3 1 eq_refl ltac:(lia))).
Defined.

Lemma try_emplace_delegates_witness :
  (1 <= length (shards_ zfinal))%nat /\
  try_emplace Z.eq_dec id_hash 5 99 zfinal = Ret (zfinal, ((5, 50), false)).
Proof.
  pose proof (try_emplace_delegates Z.eq_dec id_hash 5 99 zfinal ltac:(simpl; lia)) as H.
  cbv zeta in H. destruct H as [_ [_ H3]].
  split; [simpl; lia | exact (H3 (5, 50) eq_refl)].
Defined.

Lemma copy_complete_witness :
  run Z.eq_dec id_hash zops (znew 4) = Ret (zfinal, 3%nat, 1%nat) /\
  Z.of_nat (live zfinal) < 2 ^ 64 /\
  copy (fun _ => true) zfinal = [10; 50] /\ Z.of_nat (length (copy (fun _ => true) zfinal)) = size zfinal.
Proof.
  pose proof (copy_complete Z.eq_dec id_hash 4 zops zfinal 3 1 eq_refl ltac:(vm_compute; reflexivity))
    as [H1 H2].
  split; [reflexivity | split; [vm_compute; reflexivity | split; [exact H1 | exact H2]]].
Defined.

Lemma lazy_shard_storage_witness :
  step Z.eq_dec id_hash (OpTryEmplace 4 40) zfinal
    = Ret (mk_map_sharded [Some [(4, 40)]; Some [(1, 10); (5, 50)]; Some []; None] 3, 1%nat, 0%nat) /\
  is_none (nth 0 (shards_ zfinal) None) = true /\
  is_none (nth 0 [Some [(4, 40)]; Some [(1, 10); (5, 50)]; Some []; @None (@umap Z Z)] None) = false /\
  (exists k v, @OpTryEmplace Z Z 4 40 = OpTryEmplace k v) /\
  (allocations Z.eq_dec id_hash 2 zops (znew 4) <= 1)%nat.
Proof.
  destruct (@lazy_shard_storage Z Z Z.eq_dec id_hash) as [_ [_ [_ [_ [_ [_ [P7 P8]]]]]]].
  split; [reflexivity | split; [reflexivity | split; [reflexivity |]]].
  split; [exact (P7 (OpTryEmplace 4 40) zfinal (mk_map_sharded [Some [(4, 40)]; Some [(1, 10); (5, 50)]; Some []; None] 3) 1%nat 0%nat 0%nat eq_refl eq_refl eq_refl) | exact (P8 zops (znew 4) 2%nat)].
Defined.

Lemma entry_in_home_shard_witness :
  run Z.eq_dec id_hash zops (znew 4) = Ret (zfinal, 3%nat, 1%nat) /\
  In (5, 50) (visit_map (nth 1 (shards_ zfinal) None)) /\
  1%nat = Z.to_nat (hash_of id_hash 5 mod Z.of_nat 4).
Proof.
  split; [reflexivity | split; [simpl; auto |]].
  exact (entry_in_home_shard Z.eq_dec id_hash 4 zops zfinal 3 1 1 (5, 50) eq_refl
           ltac:(simpl; auto)).
Defined.

Lemma keys_unique_witness :
  run Z.eq_dec id_hash zops (znew 4) = Ret (zfinal, 3%nat, 1%nat) /\
  NoDup (map fst (entries zfinal)).
Proof.
  split; [reflexivity |].
  exact (keys_unique Z.eq_dec id_hash 4 zops zfinal 3 1 eq_refl).
Defined.

Lemma find_live_entry_witness :
  run Z.eq_dec id_hash zops (znew 4) = Ret (zfinal, 3%nat, 1%nat) /\
  In (1, 10) (entries zfinal) /\
  find Z.eq_dec id_hash 1 zfinal = Ret (Some 10).
Proof.
  split; [reflexivity | split; [simpl; auto |]].
  exact (find_live_entry Z.eq_dec id_hash 4 zops zfinal 3 1 1 10 eq_refl ltac:(simpl; auto)).
Defined.

Lemma try_emplace_then_find_witness :
  (1 <= length (shards_ zfinal))%nat /\
  try_emplace Z.eq_dec id_hash 6 60 zfinal
    = Ret (mk_map_sharded [None; Some [(1, 10); (5, 50)]; Some [(6, 60)]; None] 3, ((6, 60), true)) /\
  find Z.eq_dec id_hash 6 (mk_map_sharded [None; Some [(1, 10); (5, 50)]; Some [(6, 60)]; None] 3)
    = Ret (Some 60).
Proof.
  pose proof (try_emplace_then_find Z.eq_dec id_hash 6 60 zfinal
    (mk_map_sharded [None; Some [(1, 10); (5, 50)]; Some [(6, 60)]; None] 3) (6, 60) true
    ltac:(simpl; lia) eq_refl) as [_ [_ H]].
  split; [simpl; lia | split; [reflexivity | exact H]].
Defined.

Lemma erase_removes_key_witness :
  run Z.eq_dec id_hash zops (znew 4) = Ret (zfinal, 3%nat, 1%nat) /\ (1 <= 4)%nat /\
  exists m' r, erase Z.eq_dec id_hash 5 zfinal = Ret (m', r) /\
    entries m' = filter (fun e => if Z.eq_dec 5 (fst e) then false else true) (entries zfinal) /\
    (In 5 (map fst (entries zfinal)) -> r = 1) /\
    (~ In 5 (map fst (entries zfinal)) -> r = 0).
Proof.
  split; [reflexivity | split; [lia |]].
  exact (erase_removes_key Z.eq_dec id_hash 4 zops zfinal 3 1 5 eq_refl ltac:(lia)).
Defined.

Lemma erase_undoes_insert_witness :
  run Z.eq_dec id_hash zops (znew 4) = Ret (zfinal, 3%nat, 1%nat) /\
  try_emplace Z.eq_dec id_hash 6 60 zfinal
    = Ret (mk_map_sharded [None; Some [(1, 10); (5, 50)]; Some [(6, 60)]; None] 3, ((6, 60), true)) /\
  exists m2, erase Z.eq_dec id_hash 6
               (mk_map_sharded [None; Some [(1, 10); (5, 50)]; Some [(6, 60)]; None] 3) = Ret (m2, 1) /\
             entries m2 = entries zfinal /\ size m2 = size zfinal.
Proof.
  split; [reflexivity | split; [reflexivity |]].
  exact (erase_undoes_insert Z.eq_dec id_hash 4 zops zfinal
           (mk_map_sharded [None; Some [(1, 10); (5, 50)]; Some [(6, 60)]; None] 3)
           3 1 6 60 (6, 60) eq_refl eq_refl).
Defined.

Lemma erase_if_filters_witness :
  keep_copied [2] = [2] /\
  entries (fst (erase_if keep_call keep_copied [2] two_keys)) = [(2, 20)].
Proof.
  split; [reflexivity |].
  exact (erase_if_filters _ keep_call keep_copied [2] two_keys eq_refl).
Defined.

Lemma erase_if_returns_count_witness :
  Z.of_nat (live two_keys - live (fst (erase_if keep_call keep_moved [1; 2] two_keys))) < 2 ^ 31 /\
  snd (erase_if keep_call keep_moved [1; 2] two_keys) = 1.
Proof.
  split; [vm_compute; reflexivity |].
  rewrite (erase_if_returns_count _ keep_call keep_moved [1; 2] two_keys
             ltac:(vm_compute; reflexivity)).
  vm_compute. reflexivity.
Defined.

Lemma erase_one_nomatch_unchanged_witness :
  keep_copied [1; 2] = [1; 2] /\
  (forall e, In e (entries two_keys) -> keep_call [1; 2] e = false) /\
  erase_one keep_call keep_copied [1; 2] two_keys = (two_keys, 0).
Proof.
  assert (Hp : forall e, In e (entries two_keys) -> keep_call [1; 2] e = false).
  { intros e He. simpl in He. destruct He as [<-|[<-|[]]]; reflexivity. }
  split; [reflexivity | split; [exact Hp |]].
  exact (erase_one_nomatch_unchanged _ keep_call keep_copied [1; 2] two_keys eq_refl Hp).
Defined.

Lemma try_emplace_entries_witness :
  try_emplace Z.eq_dec id_hash 6 60 zfinal
    = Ret (mk_map_sharded [None; Some [(1, 10); (5, 50)]; Some [(6, 60)]; None] 3, ((6, 60), true)) /\
  Permutation (entries (mk_map_sharded [None; Some [(1, 10); (5, 50)]; Some [(6, 60)]; None] 3))
              ((6, 60) :: entries zfinal).
Proof.
  split; [reflexivity |].
  exact (try_emplace_entries Z.eq_dec id_hash 6 60 zfinal
           (mk_map_sharded [None; Some [(1, 10); (5, 50)]; Some [(6, 60)]; None] 3)
           (6, 60) true eq_refl).
Defined.

